(** * Grafana: ngalert service wiring and Prometheus query hints

    A shallow embedding of
    - [pkg/services/ngalert/ngalert.go] (constants, [ProvideService], [init],
      [Run], [IsDisabled]), and
    - [public/app/plugins/datasource/prometheus/query_hints.ts]
      ([getQueryHints]),
    together with models of the scheduler and of the state manager, whose
    packages ([schedule], [state]) are only called from the code above. *)

From Stdlib Require Import ZArith NArith List String Ascii Bool Lia.
Import ListNotations.
Open Scope Z_scope.

(* ================================================================== *)
(** * Part I: definitions                                              *)
(* ================================================================== *)

(** ** The state manager (package [state])

    The package is called from [ngalert.go] ([state.NewManager],
    [stateManager.Warm]) but is not part of the sources at hand. *)
Module StateManager.

(** The five states of an alert instance. *)
Inductive State : Type := Normal | Pending | Alerting | NoData | Error.

(** The evaluator's verdict for one label set at one tick. *)
Inductive Verdict : Type := VFiring | VNormal | VError | VNoData.

(** The rule's policy for a query that returned no series. *)
Inductive NoDataPolicy : Type :=
| PolicyAlerting | PolicyNormal | PolicyError | PolicyKeepLast.

(** Durations and timestamps are in seconds. *)
Record AlertRule : Type := mkAlertRule {
  orgID : Z;
  ruleUID : string;
  interval : Z;
  phaseOffset : Z;
  pendingDuration : Z;
  noDataPolicy : NoDataPolicy;
  enabled : bool
}.

Record AlertInstance : Type := mkAlertInstance {
  instRuleUID : string;
  labels : list (string * string);
  state : State;
  stateEntry : Z;
  lastEvaluation : Z
}.

(** An invocation of the notification fan-out. *)
Inductive FanOut : Type := Fires | Resolves.

Definition State_eqb (a b : State) : bool :=
  match a, b with
  | Normal, Normal | Pending, Pending | Alerting, Alerting
  | NoData, NoData | Error, Error => true
  | _, _ => false
  end.

(** Stay in the current state: only the last-evaluation timestamp moves. *)
Definition refresh (now : Z) (i : AlertInstance) : AlertInstance :=
  mkAlertInstance (instRuleUID i) (labels i) (state i) (stateEntry i) now.

(** Enter state [s], timestamping the entry. *)
Definition enter (s : State) (now : Z) (i : AlertInstance) : AlertInstance :=
  mkAlertInstance (instRuleUID i) (labels i) s now now.

(** Modelled from the spec: the state manager's transition function is in
    package [state], which is missing; this is the transition list of the
    spec's State Manager section, row by row.

    A Firing verdict: [Normal -> Pending] (timestamp the entry);
    [Pending -> Alerting] once the pending duration has elapsed since the
    entry (fan-out: fires), [Pending] held otherwise; [Alerting -> Alerting]
    re-affirms; recovery from [Error]/[NoData] follows the rule for
    [Normal]. *)
Definition onFiring (r : AlertRule) (i : AlertInstance) (now : Z)
  : AlertInstance * list FanOut :=
  match state i with
  | Pending =>
      if pendingDuration r <=? now - stateEntry i
      then (enter Alerting now i, [Fires])
      else (refresh now i, [])
  | Alerting => (refresh now i, [])
  | Normal | NoData | Error => (enter Pending now i, [])
  end.

(** Modelled from the spec: the rows of the missing transition function for
    a Normal verdict: [Pending -> Normal] without notification,
    [Alerting -> Normal] (fan-out: resolved), recovery from
    [Error]/[NoData] to [Normal]. *)
Definition onNormal (i : AlertInstance) (now : Z)
  : AlertInstance * list FanOut :=
  match state i with
  | Alerting => (enter Normal now i, [Resolves])
  | Normal => (refresh now i, [])
  | Pending | NoData | Error => (enter Normal now i, [])
  end.

(** Modelled from the spec: the row of the missing transition function for
    a failed evaluation: any state goes to [Error], or is held when the
    policy keeps the last state. *)
Definition onError (r : AlertRule) (i : AlertInstance) (now : Z)
  : AlertInstance * list FanOut :=
  match noDataPolicy r with
  | PolicyKeepLast => (refresh now i, [])
  | _ => if State_eqb (state i) Error then (refresh now i, [])
         else (enter Error now i, [])
  end.

(** Modelled from the spec: the missing state manager's step for one
    verdict.  The no-data policy maps a NoData verdict to Firing, Normal or
    Error, or holds the state. *)
Definition processVerdict (r : AlertRule) (i : AlertInstance) (v : Verdict)
  (now : Z) : AlertInstance * list FanOut :=
  match v with
  | VFiring => onFiring r i now
  | VNormal => onNormal i now
  | VError => onError r i now
  | VNoData =>
      match noDataPolicy r with
      | PolicyAlerting => onFiring r i now
      | PolicyNormal => onNormal i now
      | PolicyError => onError r i now
      | PolicyKeepLast => (refresh now i, [])
      end
  end.

(** The fan-out that a step from state [a] to state [b] calls for: the two
    crossings of the Normal/Alerting boundary. *)
Definition boundaryFanOut (a b : State) : list FanOut :=
  match a, b with
  | Normal, Alerting | Pending, Alerting => [Fires]
  | Alerting, Normal => [Resolves]
  | _, _ => []
  end.

(** The states an instance goes through when the verdicts [vs] arrive one
    per tick, the first at time [now], ticks [B] apart. *)
Fixpoint statePath (r : AlertRule) (B : Z) (now : Z) (i : AlertInstance)
  (vs : list Verdict) : list State :=
  match vs with
  | [] => []
  | v :: vs' =>
      let i' := fst (processVerdict r i v now) in
      state i' :: statePath r B (now + B) i' vs'
  end.

(** All fan-out invocations along the same run. *)
Fixpoint fanOuts (r : AlertRule) (B : Z) (now : Z) (i : AlertInstance)
  (vs : list Verdict) : list FanOut :=
  match vs with
  | [] => []
  | v :: vs' =>
      let res := processVerdict r i v now in
      snd res ++ fanOuts r B (now + B) (fst res) vs'
  end.

(** How many times a path that starts after state [prev] enters
    [Alerting]. *)
Fixpoint alertingEntries (prev : State) (path : list State) : nat :=
  match path with
  | [] => O
  | s :: path' =>
      ((if negb (State_eqb prev Alerting) && State_eqb s Alerting
        then 1 else 0) + alertingEntries s path')%nat
  end.

(** A newly observed label set starts in [Normal]. *)
Definition newInstance (uid : string) (ls : list (string * string)) (now : Z)
  : AlertInstance :=
  mkAlertInstance uid ls Normal now now.

(** Modelled from the spec: [Manager.Warm] is in the missing package
    [state]; it loads all persisted instances from the state store into
    the manager's table. *)
Definition Warm (persisted table : list AlertInstance) : list AlertInstance :=
  persisted.

(** The fan-out calls for the crossings along a path that starts after
    state [prev]. *)
Fixpoint crossings (prev : State) (path : list State) : list FanOut :=
  match path with
  | [] => []
  | s :: path' => boundaryFanOut prev s ++ crossings s path'
  end.

(** An instance of some rule, in state [s] since [entry]. *)
Definition instanceIn (s : State) (entry : Z) : AlertInstance :=
  mkAlertInstance "rule-1" [("instance"%string, "a"%string)] s entry entry.

(** A rule evaluated every 10 seconds with a pending duration of 10
    seconds. *)
Definition rule10 : AlertRule :=
  mkAlertRule 1 "rule-1" 10 0 10 PolicyKeepLast true.

(** The claim that [k] Firing verdicts [B] apart, followed by a Normal one,
    take a Normal instance to [Alerting] exactly once iff
    [k * B >= pendingDuration], and otherwise back to [Normal] without
    [Alerting]. *)
Definition pendingClaim (r : AlertRule) (B t0 : Z) (i : AlertInstance)
  (k : nat) : Prop :=
  let path := statePath r B t0 i (repeat VFiring k ++ [VNormal]) in
  (alertingEntries Normal path = 1%nat
   <-> Z.of_nat k * B >= pendingDuration r)
  /\ (~ Z.of_nat k * B >= pendingDuration r ->
      ~ In Alerting path /\ last path Normal = Normal).

End StateManager.

(** ** The scheduler (package [schedule])

    [ngalert.go] configures it ([schedule.SchedulerCfg]) and starts it
    ([schedule.Run]); the package itself is not part of the sources at
    hand. *)
Module Scheduler.
Import StateManager.

(** Modelled from the spec: the due test of the missing scheduler.  A rule
    is due iff the tick counter, shifted by the rule's phase offset, is
    [0] modulo [interval / base interval]; a rule whose interval the base
    interval does not divide is not evaluated. *)
Definition isDue (B : Z) (tick : Z) (r : AlertRule) : bool :=
  enabled r
  && (interval r mod B =? 0)
  && ((tick - phaseOffset r) mod (interval r / B) =? 0).

(** [N] consecutive tick counters from [t0]. *)
Definition ticksFrom (t0 : Z) (N : nat) : list Z :=
  map (fun k => t0 + Z.of_nat k) (seq 0 N).

(** The number of dispatches of [r] across those ticks. *)
Definition dispatchCount (B : Z) (r : AlertRule) (t0 : Z) (N : nat) : nat :=
  List.length (filter (fun t => isDue B t r) (ticksFrom t0 N)).

Section Retry.
(** What a query execution returns, and the evaluator's reduction of it to
    a verdict. *)
Variable Series : Type.
Variable reduce : Series -> Verdict.

(** Modelled from the spec: the retry loop of the missing scheduler's
    evaluation task.  [exec n] is the outcome of execution attempt [n]
    (from 1), [None] a failure.  Attempts follow one another without
    backoff; the first success is reduced to the verdict, and when the
    budget is exhausted the verdict is Error.  The result carries the
    number of attempts made. *)
Fixpoint attemptLoop (exec : nat -> option Series) (budget : nat)
  (made : nat) : Verdict * nat :=
  match budget with
  | O => (VError, made)
  | S budget' =>
      match exec (S made) with
      | Some s => (reduce s, S made)
      | None => attemptLoop exec budget' (S made)
      end
  end.

Definition evaluateRule (maxAttempts : Z) (exec : nat -> option Series)
  : Verdict * nat :=
  attemptLoop exec (Z.to_nat maxAttempts) O.

(** Modelled from the spec: one tick of the missing scheduler loop: one
    evaluation task per due rule, each reporting its verdict; no task
    hands a failure back to the loop. *)
Definition processTick (maxAttempts : Z) (B : Z) (tick : Z)
  (exec : AlertRule -> Z -> nat -> option Series) (rules : list AlertRule)
  : list (AlertRule * (Verdict * nat)) :=
  map (fun r => (r, evaluateRule maxAttempts (exec r tick)))
      (filter (isDue B tick) rules).

(** The loop itself, over the ticks it is given. *)
Definition tickLoop (maxAttempts : Z) (B : Z)
  (exec : AlertRule -> Z -> nat -> option Series) (rules : list AlertRule)
  (ticks : list Z) : list (Z * list (AlertRule * (Verdict * nat))) :=
  map (fun t => (t, processTick maxAttempts B t exec rules)) ticks.
End Retry.

(** A rule evaluated every 60 seconds, and one whose interval 10 does not
    divide. *)
Definition everyMinute : AlertRule :=
  mkAlertRule 1 "cpu-high" 60 2 0 PolicyKeepLast true.
Definition every15s : AlertRule :=
  mkAlertRule 1 "odd" 15 0 0 PolicyKeepLast true.

(** A query that fails twice and then returns the value 7; the reduction
    fires above 5. *)
Definition flaky (n : nat) : option Z :=
  match n with
  | 3%nat => Some 7
  | _ => None
  end.
Definition above5 (v : Z) : Verdict := if 5 <? v then VFiring else VNormal.

End Scheduler.

(** ** ngalert.go *)
Module Ngalert.

(** Go's [int64] ([time.Duration] included): arithmetic wraps around. *)
Definition wrap64 (z : Z) : Z := (z + 2 ^ 63) mod 2 ^ 64 - 2 ^ 63.
Arguments wrap64 : simpl never.

(** [time.Second], in nanoseconds. *)
Definition time_Second : Z := 1000000000.

(** The [const] block. *)
Definition maxAttempts : Z := 3.
Definition defaultBaseIntervalSeconds : Z := 10.
Definition defaultIntervalSeconds : Z := 6 * defaultBaseIntervalSeconds.

(** A Go [error] value; [option error] is an [error] that may be [nil]. *)
Inductive error : Type := mkError (msg : string).

(** The fields of [setting.Cfg] that this file reads.  [IsNgAlertEnabled] is
    a method of [setting.Cfg]; its result is carried as a field. *)
Record Cfg : Type := mkCfg {
  AlertingBaseInterval : Z;
  AdminConfigPollInterval : Z;
  AppURL : string;
  IsNgAlertEnabled : bool
}.

Record DBstore : Type := mkDBstore {
  store_BaseInterval : Z;
  store_DefaultIntervalSeconds : Z
}.

Record SchedulerCfg : Type := mkSchedulerCfg {
  BaseInterval : Z;
  MaxAttempts : Z;
  InstanceStore : DBstore;
  sched_AdminConfigPollInterval : Z
}.

Record MultiOrgAlertmanager : Type := mkMOA { moa_store : DBstore }.
Record Manager : Type := mkManager { mgr_store : DBstore }.
Record ScheduleService : Type := mkSchedule {
  sch_cfg : SchedulerCfg;
  sch_appURL : string;
  sch_stateManager : Manager
}.

(** [AlertNG]: the configuration pointer and the three components that
    [init] constructs.  The injected collaborators ([DataSourceCache],
    [RouteRegister], [SQLStore], ...) are handles that are only passed on. *)
Record AlertNG : Type := mkAlertNG {
  ng_Cfg : option Cfg;
  ng_schedule : option ScheduleService;
  ng_stateManager : option Manager;
  ng_MultiOrgAlertmanager : option MultiOrgAlertmanager
}.

(** What start-up does to the rest of the process, in program order. *)
Inductive Effect : Type :=
| EffLogNew (name : string)
| EffNewMultiOrgAlertmanager (s : DBstore)
| EffLoadAndSyncAlertmanagersForOrgs
| EffClockNew
| EffNewManager (s : DBstore)
| EffNewScheduler (c : SchedulerCfg)
| EffRegisterAPIEndpoints.

(** The world start-up runs in: the outcome that the initial
    [LoadAndSyncAlertmanagersForOrgs] call will have, and the effects
    performed so far (oldest first). *)
Record World : Type := mkWorld {
  syncOutcome : option error;
  effects : list Effect
}.

(** A computation either returns in a new world or panics (nil
    dereference). *)
Inductive Res (A : Type) : Type :=
| Ret (a : A) (w : World)
| Panic (w : World).
Arguments Ret {A} a w.
Arguments Panic {A} w.

Definition M (A : Type) : Type := World -> Res A.

Definition ret {A} (a : A) : M A := fun w => Ret a w.
Definition bind {A B} (m : M A) (k : A -> M B) : M B :=
  fun w => match m w with
           | Ret a w' => k a w'
           | Panic w' => Panic w'
           end.
Definition panic {A} : M A := fun w => Panic w.
Definition perform (e : Effect) : M unit :=
  fun w => Ret tt (mkWorld (syncOutcome w) (effects w ++ [e])).

Notation "x <- m ;; k" := (bind m (fun x => k))
  (at level 61, m at next level, right associativity).
Notation "m ;;; k" := (bind m (fun _ => k))
  (at level 61, right associativity).

(** [notifier.NewMultiOrgAlertmanager(ng.Cfg, store, store)] *)
Definition NewMultiOrgAlertmanager (s : DBstore) : M MultiOrgAlertmanager :=
  perform (EffNewMultiOrgAlertmanager s) ;;; ret (mkMOA s).

(** [moa.LoadAndSyncAlertmanagersForOrgs(ctx)]: its outcome is the world's. *)
Definition LoadAndSyncAlertmanagersForOrgs : M (option error) :=
  perform EffLoadAndSyncAlertmanagersForOrgs ;;; (fun w => Ret (syncOutcome w) w).

Definition NewManager (s : DBstore) : M Manager :=
  perform (EffNewManager s) ;;; ret (mkManager s).

Definition NewScheduler (c : SchedulerCfg) (appURL : string) (m : Manager)
  : M ScheduleService :=
  perform (EffNewScheduler c) ;;; ret (mkSchedule c appURL m).

(** [AlertNG.IsDisabled] *)
Definition IsDisabled (ng : AlertNG) : bool :=
  match ng_Cfg ng with
  | None => true
  | Some cfg => negb (IsNgAlertEnabled cfg)
  end.

(** The first four lines of [init]: the base interval as a [time.Duration]. *)
Definition baseIntervalOf (configured : Z) : Z :=
  let baseInterval :=
    if configured <=? 0 then defaultBaseIntervalSeconds else configured in
  wrap64 (baseInterval * time_Second).
Arguments baseIntervalOf : simpl never.

(** [AlertNG.init].  The receiver is a pointer: the updated service comes
    back with the error. *)
Definition init (ng : AlertNG) : M (option error * AlertNG) :=
  match ng_Cfg ng with
  | None => panic
  | Some cfg =>
    let baseInterval := baseIntervalOf (AlertingBaseInterval cfg) in
    let store := mkDBstore baseInterval defaultIntervalSeconds in
    moa <- NewMultiOrgAlertmanager store ;;
    let ng := mkAlertNG (ng_Cfg ng) (ng_schedule ng) (ng_stateManager ng)
                        (Some moa) in
    err <- LoadAndSyncAlertmanagersForOrgs ;;
    match err with
    | Some e => ret (Some e, ng)
    | None =>
      perform EffClockNew ;;;
      perform (EffLogNew "ngalert.scheduler") ;;;
      let schedCfg :=
        mkSchedulerCfg baseInterval maxAttempts store
                       (AdminConfigPollInterval cfg) in
      stateManager <- NewManager store ;;
      schedule <- NewScheduler schedCfg (AppURL cfg) stateManager ;;
      let ng := mkAlertNG (ng_Cfg ng) (Some schedule) (Some stateManager)
                          (ng_MultiOrgAlertmanager ng) in
      perform EffRegisterAPIEndpoints ;;;
      ret (None, ng)
    end
  end.

(** [ProvideService]: returns the service pointer (or nil) and an error. *)
Definition ProvideService (cfg : option Cfg) : M (option AlertNG * option error) :=
  perform (EffLogNew "ngalert") ;;;
  let ng := mkAlertNG cfg None None None in
  if IsDisabled ng then ret (Some ng, None)
  else
    r <- init ng ;;
    match fst r with
    | Some err => ret (None, Some err)
    | None => ret (Some (snd r), None)
    end.

(** Start-up in a world that has performed nothing yet. *)
Definition freshWorld (sync : option error) : World := mkWorld sync [].

(** The effects that start or expose an alerting component, all after the
    initial sync in [init]. *)
Definition startsComponent (e : Effect) : bool :=
  match e with
  | EffClockNew | EffNewManager _ | EffNewScheduler _
  | EffRegisterAPIEndpoints => true
  | _ => false
  end.

(** *** [Run]

    [Run] logs, warms the state manager, and then runs the scheduler and the
    Alertmanager in an [errgroup] whose context derives from [ctx].  The
    goroutines interleave, so [Run] is modelled as a transition system: an
    action of the main goroutine, of one of the two loops, or of whoever
    holds [ctx]'s cancel function. *)

(** Where the main goroutine stands in [Run]'s body. *)
Inductive Pc : Type :=
| AtLogDebug          (* ng.Log.Debug("ngalert starting") *)
| AtWarm              (* ng.stateManager.Warm() is about to be called *)
| InWarm              (* ... and is running *)
| AtWithContext       (* errgroup.WithContext(ctx) *)
| AtGoSchedule        (* children.Go(... ng.schedule.Run(subCtx) ...) *)
| AtGoAlertmanager    (* children.Go(... ng.MultiOrgAlertmanager.Run(subCtx) ...) *)
| AtWait              (* return children.Wait() *)
| Returned (r : option error).

(** A function handed to [children.Go]. *)
Inductive Loop : Type :=
| Unspawned
| Looping
| Finished (r : option error).

Inductive Event : Type :=
| EvLogDebug
| EvWarmCall
| EvWarmReturn
| EvScheduleRun
| EvTick (n : nat)
| EvScheduleReturn (r : option error)
| EvAlertmanagerRun
| EvAlertmanagerReturn (r : option error)
| EvCancel
| EvRunReturn (r : option error).

Record RunState : Type := mkRunState {
  pc : Pc;
  sched : Loop;
  am : Loop;
  ctxDone : bool;           (* ctx has been cancelled *)
  groupCancelled : bool;    (* the errgroup has cancelled subCtx *)
  groupErr : option error;  (* the errgroup's first non-nil error *)
  tickCounter : nat;
  persisted : list StateManager.AlertInstance;  (* the state store *)
  table : list StateManager.AlertInstance;      (* the manager's table *)
  trace : list Event        (* newest first *)
}.

(** [subCtx] is done when its parent is, or when the group cancelled it. *)
Definition subCtxDone (s : RunState) : bool := ctxDone s || groupCancelled s.

Definition isFinished (l : Loop) : bool :=
  match l with Finished _ => true | _ => false end.

(** [errgroup]: a function that returns a non-nil error records it if it is
    the first, and cancels the group's context. *)
Definition recordErr (r : option error) (s : RunState) : option error * bool :=
  match r, groupErr s with
  | Some e, None => (Some e, true)
  | _, _ => (groupErr s, groupCancelled s)
  end.

Inductive Action : Type :=
| ActMain                           (* the main goroutine's next statement *)
| ActTick                           (* the scheduler dispatches a tick *)
| ActScheduleReturn (r : option error)
| ActAlertmanagerReturn (r : option error)
| ActCancel.                        (* ctx is cancelled *)

(** [schedule.Run] and [MultiOrgAlertmanager.Run] are in packages that are
    not part of the sources at hand; [Run] only starts them.  What they may
    do is a parameter: whether the scheduler dispatches a tick, and whether
    a loop returns [r], given whether the context it was handed is done. *)
Record Loops : Type := mkLoops {
  scheduleTicks : bool -> bool;
  scheduleReturns : option error -> bool -> bool;
  alertmanagerReturns : option error -> bool -> bool
}.

(** Loops that stop when their context is cancelled: no tick is dispatched
    any more, and each loop is able to return. *)
Definition stopOnCancel (L : Loops) : Prop :=
  scheduleTicks L true = false
  /\ (exists r, scheduleReturns L r true = true)
  /\ (exists r, alertmanagerReturns L r true = true).

(** Modelled from the spec: the loops of the missing packages [schedule]
    and [notifier].  Each blocks until cancelled: it returns [nil] only on
    cancellation, may return an unrecovered error at any time, and issues no
    tick once cancelled. *)
Definition specLoops : Loops :=
  mkLoops negb
          (fun r done => match r with Some _ => true | None => done end)
          (fun r done => match r with Some _ => true | None => done end).

Section WithLoops.
Variable L : Loops.

Definition exec (a : Action) (s : RunState) : option RunState :=
  match a with
  | ActMain =>
      match pc s with
      | AtLogDebug =>
          Some (mkRunState AtWarm (sched s) (am s) (ctxDone s)
                  (groupCancelled s) (groupErr s) (tickCounter s)
                  (persisted s) (table s) (EvLogDebug :: trace s))
      | AtWarm =>
          Some (mkRunState InWarm (sched s) (am s) (ctxDone s)
                  (groupCancelled s) (groupErr s) (tickCounter s)
                  (persisted s) (table s) (EvWarmCall :: trace s))
      | InWarm =>
          Some (mkRunState AtWithContext (sched s) (am s) (ctxDone s)
                  (groupCancelled s) (groupErr s) (tickCounter s)
                  (persisted s) (StateManager.Warm (persisted s) (table s))
                  (EvWarmReturn :: trace s))
      | AtWithContext =>
          Some (mkRunState AtGoSchedule (sched s) (am s) (ctxDone s)
                  false None (tickCounter s)
                  (persisted s) (table s) (trace s))
      | AtGoSchedule =>
          Some (mkRunState AtGoAlertmanager Looping (am s) (ctxDone s)
                  (groupCancelled s) (groupErr s) (tickCounter s)
                  (persisted s) (table s) (EvScheduleRun :: trace s))
      | AtGoAlertmanager =>
          Some (mkRunState AtWait (sched s) Looping (ctxDone s)
                  (groupCancelled s) (groupErr s) (tickCounter s)
                  (persisted s) (table s) (EvAlertmanagerRun :: trace s))
      | AtWait =>
          (* Wait blocks until every function passed to Go has returned,
             then cancels the context and returns the first error. *)
          if isFinished (sched s) && isFinished (am s)
          then Some (mkRunState (Returned (groupErr s)) (sched s) (am s)
                       (ctxDone s) true (groupErr s) (tickCounter s)
                       (persisted s) (table s)
                       (EvRunReturn (groupErr s) :: trace s))
          else None
      | Returned _ => None
      end
  | ActTick =>
      match sched s with
      | Looping =>
          if scheduleTicks L (subCtxDone s)
          then Some (mkRunState (pc s) (sched s) (am s) (ctxDone s)
                       (groupCancelled s) (groupErr s) (S (tickCounter s))
                       (persisted s) (table s)
                       (EvTick (tickCounter s) :: trace s))
          else None
      | _ => None
      end
  | ActScheduleReturn r =>
      match sched s with
      | Looping =>
          if scheduleReturns L r (subCtxDone s)
          then Some (mkRunState (pc s) (Finished r) (am s) (ctxDone s)
                       (snd (recordErr r s)) (fst (recordErr r s))
                       (tickCounter s) (persisted s) (table s)
                       (EvScheduleReturn r :: trace s))
          else None
      | _ => None
      end
  | ActAlertmanagerReturn r =>
      match am s with
      | Looping =>
          if alertmanagerReturns L r (subCtxDone s)
          then Some (mkRunState (pc s) (sched s) (Finished r) (ctxDone s)
                       (snd (recordErr r s)) (fst (recordErr r s))
                       (tickCounter s) (persisted s) (table s)
                       (EvAlertmanagerReturn r :: trace s))
          else None
      | _ => None
      end
  | ActCancel =>
      if ctxDone s then None
      else Some (mkRunState (pc s) (sched s) (am s) true
                   (groupCancelled s) (groupErr s) (tickCounter s)
                   (persisted s) (table s) (EvCancel :: trace s))
  end.

(** [Run] is entered with a state store and an empty table. *)
Definition enterRun (store : list StateManager.AlertInstance) : RunState :=
  mkRunState AtLogDebug Unspawned Unspawned false false None O store [] [].

(** The state after a schedule of actions, if each is enabled in turn. *)
Fixpoint runActions (acts : list Action) (s : RunState) : option RunState :=
  match acts with
  | [] => Some s
  | a :: acts' =>
      match exec a s with
      | Some s' => runActions acts' s'
      | None => None
      end
  end.

Inductive reachable (store : list StateManager.AlertInstance)
  : RunState -> Prop :=
| reach_enter : reachable store (enterRun store)
| reach_exec s a s' :
    reachable store s -> exec a s = Some s' -> reachable store s'.

End WithLoops.

Definition isWarmCall (e : Event) : bool :=
  match e with EvWarmCall => true | _ => false end.

Definition pcRank (p : Pc) : nat :=
  match p with
  | AtLogDebug => 0 | AtWarm => 1 | InWarm => 2 | AtWithContext => 3
  | AtGoSchedule => 4 | AtGoAlertmanager => 5 | AtWait => 6
  | Returned _ => 7
  end.

Definition loopRank (l : Loop) : nat :=
  match l with Unspawned => 0 | Looping => 1 | Finished _ => 2 end.

(** The number of actions that can still happen once [ctx] is cancelled. *)
Definition remaining (s : RunState) : nat :=
  (7 - pcRank (pc s)) + (2 - loopRank (sched s)) + (2 - loopRank (am s)).


(** An enabled configuration with the base interval left unset. *)
Definition enabledCfg : Cfg := mkCfg 0 60000000000 "http://localhost:3000/" true.

(** Every tick in a trace (newest first) has a completed [Warm] before it. *)
Fixpoint ticksAfterWarm (tr : list Event) : Prop :=
  match tr with
  | [] => True
  | e :: older =>
      match e with
      | EvTick _ => In EvWarmReturn older
      | _ => True
      end /\ ticksAfterWarm older
  end.

Definition warmCalls (tr : list Event) : nat :=
  List.length (filter isWarmCall tr).

(** What holds of every state that [Run] can be in. *)
Record Inv (store : list StateManager.AlertInstance) (s : RunState) : Prop := {
  inv_calls : warmCalls (trace s) = if (pcRank (pc s) <=? 1)%nat then O else 1%nat;
  inv_warmed : (3 <= pcRank (pc s))%nat ->
               In EvWarmReturn (trace s) /\ table s = store;
  inv_store : persisted s = store;
  inv_sched : loopRank (sched s) = O <-> (pcRank (pc s) <= 4)%nat;
  inv_am : loopRank (am s) = O <-> (pcRank (pc s) <= 5)%nat;
  inv_ticks : ticksAfterWarm (trace s);
  inv_joined : pcRank (pc s) = 7%nat ->
               loopRank (sched s) = 2%nat /\ loopRank (am s) = 2%nat;
  inv_err : forall e, groupErr s = Some e ->
              sched s = Finished (Some e) \/ am s = Finished (Some e);
  inv_ret : forall r, pc s = Returned r -> r = groupErr s
}.

(** A run in which the scheduler dispatches two ticks. *)
Definition twoTicks : list Action :=
  [ActMain; ActMain; ActMain; ActMain; ActMain; ActMain; ActTick; ActTick].

(** A run that is cancelled while both loops run, and then winds down. *)
Definition cancelledRun : list Action :=
  [ActMain; ActMain; ActMain; ActMain; ActMain; ActMain; ActTick; ActCancel;
   ActAlertmanagerReturn None; ActScheduleReturn None; ActMain].

Definition afterTwoTicks : RunState :=
  Eval vm_compute in
  match runActions specLoops twoTicks (enterRun []) with
  | Some s => s
  | None => enterRun []
  end.

Definition afterCancelledRun : RunState :=
  Eval vm_compute in
  match runActions specLoops cancelledRun (enterRun []) with
  | Some s => s
  | None => enterRun []
  end.


(** Modelled from the spec: the loops of the missing packages [schedule]
    and [notifier] as the spec's error handling has them.  A failed
    evaluation is retried and then reported as an Error verdict, an
    unavailable rule or state store and a failed admin-configuration poll
    are logged and the loop goes on; only cancellation ends a loop, which
    then returns nil or the context's error, and no tick is issued once
    cancelled. *)
Definition isolatingLoops : Loops :=
  mkLoops negb (fun _ done => done) (fun _ done => done).


(** The store that [init] builds for the configuration [c], the scheduler
    built on it, and the effects of a start-up that goes through (after the
    service's logger has been created). *)
Definition storeOf (c : Cfg) : DBstore :=
  mkDBstore (baseIntervalOf (AlertingBaseInterval c)) defaultIntervalSeconds.

Definition scheduleOf (c : Cfg) : ScheduleService :=
  mkSchedule
    (mkSchedulerCfg (baseIntervalOf (AlertingBaseInterval c)) maxAttempts
       (storeOf c) (AdminConfigPollInterval c))
    (AppURL c) (mkManager (storeOf c)).

Definition startEffects (c : Cfg) : list Effect :=
  [EffNewMultiOrgAlertmanager (storeOf c); EffLoadAndSyncAlertmanagersForOrgs;
   EffClockNew; EffLogNew "ngalert.scheduler"; EffNewManager (storeOf c);
   EffNewScheduler (sch_cfg (scheduleOf c)); EffRegisterAPIEndpoints].

(** The first error that a loop returned, in a trace (newest first). *)
Fixpoint firstError (tr : list Event) : option error :=
  match tr with
  | [] => None
  | ev :: older =>
      match firstError older with
      | Some e => Some e
      | None =>
          match ev with
          | EvScheduleReturn (Some e) | EvAlertmanagerReturn (Some e) => Some e
          | _ => None
          end
      end
  end.

Definition isLoopError (ev : Event) : bool :=
  match ev with
  | EvScheduleReturn (Some _) | EvAlertmanagerReturn (Some _) => true
  | _ => false
  end.

(** The number of actions that can still happen once [subCtx] is done:
    those of [remaining], and the cancellation of [ctx] if it is still to
    come. *)
Definition remainingAfterDone (s : RunState) : nat :=
  (remaining s + if ctxDone s then 0 else 1)%nat.

(** What holds of the [errgroup] in every state that [Run] can be in. *)
Record GroupInv (s : RunState) : Prop := {
  g_fresh : (pcRank (pc s) <= 3)%nat ->
            groupCancelled s = false /\ groupErr s = None;
  g_first : groupErr s = firstError (trace s);
  g_cancel : groupErr s <> None -> groupCancelled s = true;
  g_sched : forall e, sched s = Finished (Some e) -> groupErr s <> None;
  g_am : forall e, am s = Finished (Some e) -> groupErr s <> None;
  g_idle : (pcRank (pc s) <= 4)%nat -> firstError (trace s) = None
}.

Definition isSync (e : Effect) : bool :=
  match e with EffLoadAndSyncAlertmanagersForOrgs => true | _ => false end.

(** Whether every component-starting effect of [l] comes after an initial
    sync; [seen] tells whether the sync has been performed before [l]. *)
Fixpoint componentsAfterSync (seen : bool) (l : list Effect) : bool :=
  match l with
  | [] => true
  | e :: l' =>
      (negb (startsComponent e) || seen)
      && componentsAfterSync (seen || isSync e) l'
  end.

(** A run up to the scheduler's failure, with the Alertmanager loop still
    running. *)
Definition schedulerFails : list Action :=
  [ActMain; ActMain; ActMain; ActMain; ActMain; ActMain;
   ActScheduleReturn (Some (mkError "scheduler"))].

Definition afterSchedulerFails : RunState :=
  Eval vm_compute in
  match runActions specLoops schedulerFails (enterRun []) with
  | Some s => s
  | None => enterRun []
  end.

(** A run in which the scheduler fails, then the Alertmanager loop fails
    while winding down, and [Run] returns. *)
Definition bothFail : list Action :=
  [ActMain; ActMain; ActMain; ActMain; ActMain; ActMain;
   ActScheduleReturn (Some (mkError "scheduler"));
   ActAlertmanagerReturn (Some (mkError "alertmanager")); ActMain].

Definition afterBothFail : RunState :=
  Eval vm_compute in
  match runActions specLoops bothFail (enterRun []) with
  | Some s => s
  | None => enterRun []
  end.

End Ngalert.

(** ** query_hints.ts *)
Module QueryHints.

(** A JavaScript string: its UTF-16 code units. *)
Definition jsstring : Type := list N.

Definition lit (s : string) : jsstring :=
  map N_of_ascii (list_ascii_of_string s).

Definition jsstring_eqb (a b : jsstring) : bool :=
  if list_eq_dec N.eq_dec a b then true else false.

(** [\w] without the unicode flag: [[A-Za-z0-9_]]. *)
Definition is_word (c : N) : bool :=
  ((97 <=? c) && (c <=? 122) || (65 <=? c) && (c <=? 90)
   || (48 <=? c) && (c <=? 57) || (c =? 95))%N.

(** What [String.prototype.trim] strips: WhiteSpace and LineTerminator. *)
Definition is_space (c : N) : bool :=
  ((9 <=? c) && (c <=? 13) || (c =? 32) || (c =? 160) || (c =? 5760)
   || (8192 <=? c) && (c <=? 8202) || (c =? 8232) || (c =? 8233)
   || (c =? 8239) || (c =? 8287) || (c =? 12288) || (c =? 65279))%N.

Fixpoint trimStart (s : jsstring) : jsstring :=
  match s with
  | c :: s' => if is_space c then trimStart s' else s
  | [] => []
  end.

Definition trim (s : jsstring) : jsstring :=
  rev (trimStart (rev (trimStart s))).

Fixpoint startsWith (p s : jsstring) : bool :=
  match p, s with
  | [], _ => true
  | a :: p', b :: s' => (a =? b)%N && startsWith p' s'
  | _ :: _, [] => false
  end.

Definition endsWith (p s : jsstring) : bool := startsWith (rev p) (rev s).

(** [s.indexOf(needle)], counting from [i] at the head of [s]. *)
Fixpoint indexOfFrom (needle s : jsstring) (i : Z) : Z :=
  if startsWith needle s then i
  else match s with
       | [] => -1
       | _ :: s' => indexOfFrom needle s' (i + 1)
       end.

Definition indexOf (s needle : jsstring) : Z := indexOfFrom needle s 0.

(** [s.match(/^\w+$/)] succeeds: [s] is a non-empty run of word characters. *)
Definition matchesBareMetric (s : jsstring) : bool :=
  match s with
  | [] => false
  | _ => forallb is_word s
  end.

(** [s.match(/^\w+_bucket$/)] succeeds: word characters only, ending in
    [_bucket] after at least one character. *)
Definition matchesBucket (s : jsstring) : bool :=
  forallb is_word s && endsWith (lit "_bucket") s
  && (List.length (lit "_bucket") <? List.length s)%nat.

(** The maximal runs of word characters of [s], in order; [acc] is the run
    being read, reversed. *)
Fixpoint wordRuns (s acc : jsstring) : list jsstring :=
  match s with
  | [] => match acc with [] => [] | _ => [rev acc] end
  | c :: s' =>
      if is_word c then wordRuns s' (c :: acc)
      else match acc with [] => [] | _ => [rev acc] end ++ wordRuns s' []
  end.

Definition hasCounterSuffix (w : jsstring) : bool :=
  existsb (fun suf => endsWith suf w
                      && (List.length suf <? List.length w)%nat)
          [lit "_total"; lit "_sum"; lit "_count"].

(** Group 1 of [s.match(/\b(\w+_(total|sum|count))\b/)]: both [\b] sit at
    the ends of a maximal run of word characters, so the match is the first
    such run that ends in one of the suffixes after at least one
    character. *)
Definition matchCounterName (s : jsstring) : option jsstring :=
  find hasCounterSuffix (wordRuns s []).

(** What the function takes from the JavaScript host and from modules that
    are not part of the sources at hand. *)
Record Host : Type := mkHost {
  num : Type;                            (* a JavaScript number *)
  num_truthy : num -> bool;              (* ToBoolean *)
  num_lt : num -> num -> bool;           (* [a < b] *)
  num_zero : num;
  num_toString : num -> jsstring;
  toLowerCase : jsstring -> jsstring;    (* String.prototype.toLowerCase *)
  (* [new RegExp(pattern)] searched in the subject: whether it matches, or
     [None] when the pattern does not compile (SyntaxError) *)
  regexpFound : jsstring -> jsstring -> option bool;
  (* [rangeUtil.intervalToSeconds], which throws on a malformed interval *)
  intervalToSeconds : jsstring -> option num;
  TimeRange : Type;
  SeriesValue : Type;                    (* an element of [series?: any[]] *)
  RuleExpansion : Type                   (* a value of [ruleMappings] *)
}.

Section WithHost.
Variable H : Host.

Record PromMetricsMetadataItem : Type := mkMetadataItem {
  md_type : jsstring
}.

(** The members of [PrometheusDatasource] ([./datasource]) that the
    function reads.  Objects used as maps keep their keys in insertion
    order. *)
Record PrometheusDatasource : Type := mkDatasource {
  (* languageProvider?.metricsMetadata *)
  metricsMetadata : option (list (jsstring * list PromMetricsMetadataItem));
  ruleMappings : option (list (jsstring * RuleExpansion H));
  getRange : TimeRange H -> option (num H);
  getSafeInterval : num H -> num H
}.

(** [PromQuery] ([./types]) *)
Record PromQuery : Type := mkPromQuery {
  expr : option jsstring;
  interval : option jsstring;
  stepMode : option jsstring
}.

Record QueryFixAction : Type := mkAction {
  action_type : jsstring;
  action_query : option jsstring;
  action_mapping : option (list (jsstring * RuleExpansion H));
  action_preventSubmit : option bool
}.

Record QueryFix : Type := mkFix {
  fix_label : jsstring;
  fix_action : QueryFixAction
}.

Record QueryHint : Type := mkHint {
  hint_type : jsstring;
  hint_label : jsstring;
  hint_fix : option QueryFix
}.

(** [obj[key]] *)
Fixpoint lookup {V : Type} (key : jsstring) (obj : list (jsstring * V))
  : option V :=
  match obj with
  | [] => None
  | (k, v) :: obj' => if jsstring_eqb k key then Some v else lookup key obj'
  end.

(** [metricMetadataKeys.find(...)] over the remaining [keys]: the first
    counter whose name occurs in the query.  The outer [None] is a thrown
    exception: no first metadata item, or a name that is no regular
    expression. *)
Fixpoint findCounter (query : jsstring)
  (metadata : list (jsstring * list PromMetricsMetadataItem))
  (keys : list jsstring) : option (option jsstring) :=
  match keys with
  | [] => Some None
  | metricName :: keys' =>
      match lookup metricName metadata with
      | Some (item :: _) =>
          if jsstring_eqb (toLowerCase H (md_type item)) (lit "counter")
          then
            match regexpFound H (lit "\b" ++ metricName ++ lit "\b") query with
            | None => None
            | Some true => Some (Some metricName)
            | Some false => findCounter query metadata keys'
            end
          else findCounter query metadata keys'
      | _ => None
      end
  end.

(** The [reduce] that keeps the rules whose name is found in the query;
    [None] when a name is no regular expression. *)
Fixpoint mappingForQuery (query : jsstring)
  (mapping : list (jsstring * RuleExpansion H))
  : option (list (jsstring * RuleExpansion H)) :=
  match mapping with
  | [] => Some []
  | (ruleName, v) :: mapping' =>
      match regexpFound H ruleName query with
      | None => None
      | Some found =>
          match mappingForQuery query mapping' with
          | None => None
          | Some acc => Some (if found then (ruleName, v) :: acc else acc)
          end
      end
  end.

(** Number of time series results needed before starting to suggest sum
    aggregation hints. *)
Definition SUM_HINT_THRESHOLD_COUNT : nat := 20.

(** [promQuery.expr || ''] *)
Definition queryOf (promQuery : PromQuery) : jsstring :=
  match expr promQuery with
  | Some e => e
  | None => []
  end.

(** The [..._bucket] block. *)
Definition histogramHints (query : jsstring) : list QueryHint :=
  if matchesBucket (trim query)
  then [mkHint (lit "HISTOGRAM_QUANTILE")
          (lit "Time series has buckets, you probably wanted a histogram.")
          (Some (mkFix (lit "Fix by adding histogram_quantile().")
                   (mkAction (lit "ADD_HISTOGRAM_QUANTILE") (Some query)
                      None None)))]
  else [].

(** The [rate()] block. *)
Definition rateHints (query : jsstring)
  (datasource : option PrometheusDatasource) : option (list QueryHint) :=
  if (indexOf query (lit "rate(") =? -1)
     && (indexOf query (lit "increase(") =? -1)
  then
    let nameMatch := matchCounterName query in
    let counterNameMetric0 :=
      match nameMatch with Some m => m | None => [] end in
    let metadata :=
      match datasource with
      | Some ds => match metricsMetadata ds with Some m => m | None => [] end
      | None => []
      end in
    let metricMetadataKeys := map fst metadata in
    match
      (if (0 <? List.length metricMetadataKeys)%nat
       then match findCounter query metadata metricMetadataKeys with
            | None => None
            | Some (Some name) => Some (name, true)
            | Some None => Some ([], false)
            end
       else Some (counterNameMetric0, false))
    with
    | None => None
    | Some (counterNameMetric, certain) =>
        match counterNameMetric with
        | [] => Some []
        | _ =>
            let simpleMetric := matchesBareMetric (trim query) in
            let verb := if certain then lit "is" else lit "looks like" in
            let label :=
              lit "Metric " ++ counterNameMetric ++ lit " " ++ verb
              ++ lit " a counter." in
            Some [if simpleMetric
                  then mkHint (lit "APPLY_RATE") label
                         (Some (mkFix (lit "Fix by adding rate().")
                                  (mkAction (lit "ADD_RATE") (Some query)
                                     None None)))
                  else mkHint (lit "APPLY_RATE")
                         (label ++ lit " Try applying a rate() function.")
                         None]
        end
    end
  else Some [].

(** The recording-rules block. *)
Definition ruleHints (query : jsstring)
  (datasource : option PrometheusDatasource) : option (list QueryHint) :=
  match datasource with
  | Some ds =>
      match ruleMappings ds with
      | Some mapping =>
          match mappingForQuery query mapping with
          | None => None
          | Some [] => Some []
          | Some found =>
              Some [mkHint (lit "EXPAND_RULES")
                      (lit "Query contains recording rules.")
                      (Some (mkFix (lit "Expand rules")
                               (mkAction (lit "EXPAND_RULES") (Some query)
                                  (Some found) None)))]
          end
      | None => Some []
      end
  | None => Some []
  end.

(** The sum-aggregation block. *)
Definition sumHints (query : jsstring) (series : option (list (SeriesValue H)))
  : list QueryHint :=
  match series with
  | Some l =>
      if (SUM_HINT_THRESHOLD_COUNT <=? List.length l)%nat
      then
        if matchesBareMetric (trim query)
        then [mkHint (lit "ADD_SUM")
                (lit "Many time series results returned.")
                (Some (mkFix (lit "Consider aggregating with sum().")
                         (mkAction (lit "ADD_SUM") (Some query) None
                            (Some true))))]
        else []
      else []
  | None => []
  end.

(** The safe-interval block. *)
Definition intervalHints (promQuery : PromQuery)
  (datasource : option PrometheusDatasource)
  (timeRange : option (TimeRange H)) : option (list QueryHint) :=
  match timeRange with
  | Some tr =>
      let range :=
        match datasource with Some ds => getRange ds tr | None => None end in
      let safeInterval :=
        match datasource with
        | Some ds =>
            Some (getSafeInterval ds
                    (match range with Some x => x | None => num_zero H end))
        | None => None
        end in
      match intervalToSeconds H
              (match interval promQuery with
               | Some i => i
               | None => lit "15s"
               end)
      with
      | None => None
      | Some seconds =>
          let label :=
            match stepMode promQuery with
            | Some m =>
                if jsstring_eqb m (lit "exact")
                then lit "The specified step interval is lower than the safe interval and has been changed to "
                     ++ match safeInterval with
                        | Some x => num_toString H x
                        | None => lit "undefined"
                        end
                     ++ lit "s. Consider increasing the step interval or changing the time range"
                else lit "The specified step interval is lower than the safe interval. Consider increasing the step interval or changing the time range"
            | None => lit "The specified step interval is lower than the safe interval. Consider increasing the step interval or changing the time range"
            end in
          match safeInterval with
          | Some x =>
              if num_truthy H x && num_lt H seconds x
              then Some [mkHint (lit "SAFE_INTERVAL") label None]
              else Some []
          | None => Some []
          end
      end
  | None => Some []
  end.

(** [getQueryHints(promQuery, series?, datasource?, timeRange?)]; [None]
    when an exception escapes. *)
Definition getQueryHints (promQuery : PromQuery)
  (series : option (list (SeriesValue H)))
  (datasource : option PrometheusDatasource)
  (timeRange : option (TimeRange H)) : option (list QueryHint) :=
  let query := queryOf promQuery in
  let hints := histogramHints query in
  match rateHints query datasource with
  | None => None
  | Some rate =>
      let hints := hints ++ rate in
      match ruleHints query datasource with
      | None => None
      | Some rules =>
          let hints := hints ++ rules in
          let hints := hints ++ sumHints query series in
          match intervalHints promQuery datasource timeRange with
          | None => None
          | Some safe => Some (hints ++ safe)
          end
      end
  end.

(** The one hint of type [ADD_SUM] that the function builds. *)
Definition addSumHint (query : jsstring) : QueryHint :=
  mkHint (lit "ADD_SUM") (lit "Many time series results returned.")
    (Some (mkFix (lit "Consider aggregating with sum().")
             (mkAction (lit "ADD_SUM") (Some query) None (Some true)))).

End WithHost.

(** A host for calls without a data source and a time range, which reach
    none of its functions. *)
Definition bareHost : Host :=
  mkHost Z (fun x => negb (x =? 0)) Z.ltb 0 (fun _ => lit "0") (fun s => s)
         (fun _ _ => Some false) (fun _ => Some 15) unit unit unit.

Definition manySeries : option (list unit) := Some (repeat tt 25).
Definition fewSeries : option (list unit) := Some (repeat tt 19).

(** *** The hints that [getQueryHints] builds *)

Section HintShapes.
Variable H : Host.

Definition histogramHint (query : jsstring) : QueryHint H :=
  mkHint H (lit "HISTOGRAM_QUANTILE")
    (lit "Time series has buckets, you probably wanted a histogram.")
    (Some (mkFix H (lit "Fix by adding histogram_quantile().")
             (mkAction H (lit "ADD_HISTOGRAM_QUANTILE") (Some query)
                None None))).

(** The [APPLY_RATE] hint for the counter [name]; [certain] when the name
    comes from the metric metadata. *)
Definition rateHint (certain : bool) (name query : jsstring) : QueryHint H :=
  let label :=
    lit "Metric " ++ name ++ lit " "
    ++ (if certain then lit "is" else lit "looks like")
    ++ lit " a counter." in
  if matchesBareMetric (trim query)
  then mkHint H (lit "APPLY_RATE") label
         (Some (mkFix H (lit "Fix by adding rate().")
                  (mkAction H (lit "ADD_RATE") (Some query) None None)))
  else mkHint H (lit "APPLY_RATE")
         (label ++ lit " Try applying a rate() function.") None.

(** [datasource?.languageProvider?.metricsMetadata ?? {}] *)
Definition metadataOf (datasource : option (PrometheusDatasource H))
  : list (jsstring * list PromMetricsMetadataItem) :=
  match datasource with
  | Some ds => match metricsMetadata H ds with Some m => m | None => [] end
  | None => []
  end.

Definition expandRulesHint (query : jsstring)
  (found : list (jsstring * RuleExpansion H)) : QueryHint H :=
  mkHint H (lit "EXPAND_RULES") (lit "Query contains recording rules.")
    (Some (mkFix H (lit "Expand rules")
             (mkAction H (lit "EXPAND_RULES") (Some query) (Some found)
                None))).

(** Whether [query.search(ruleName) > -1] for the rule of an entry. *)
Definition ruleFound (query : jsstring) (kv : jsstring * RuleExpansion H)
  : bool :=
  match regexpFound H (fst kv) query with
  | Some true => true
  | _ => false
  end.

(** [promQuery.interval ?? '15s'] *)
Definition intervalOf (promQuery : PromQuery) : jsstring :=
  match interval promQuery with
  | Some i => i
  | None => lit "15s"
  end.

(** [datasource.getSafeInterval(datasource.getRange(timeRange) ?? 0)] *)
Definition safeIntervalOf (ds : PrometheusDatasource H) (tr : TimeRange H)
  : num H :=
  getSafeInterval H ds
    (match getRange H ds tr with Some x => x | None => num_zero H end).

(** The label of the [SAFE_INTERVAL] hint; the safe interval is [undefined]
    without a data source. *)
Definition safeIntervalLabel (promQuery : PromQuery)
  (safeInterval : option (num H)) : jsstring :=
  match stepMode promQuery with
  | Some m =>
      if jsstring_eqb m (lit "exact")
      then lit "The specified step interval is lower than the safe interval and has been changed to "
           ++ match safeInterval with
              | Some x => num_toString H x
              | None => lit "undefined"
              end
           ++ lit "s. Consider increasing the step interval or changing the time range"
      else lit "The specified step interval is lower than the safe interval. Consider increasing the step interval or changing the time range"
  | None => lit "The specified step interval is lower than the safe interval. Consider increasing the step interval or changing the time range"
  end.
End HintShapes.

(** *** [getInitHints] *)

(** The members of [PrometheusDatasource] that [getInitHints] reads:
    [directUrl], [languageProvider.metrics] and [lookupsDisabled]. *)
Record InitDatasource : Type := mkInitDatasource {
  directUrl : jsstring;
  languageProvider_metrics : list jsstring;
  lookupsDisabled : bool
}.

(** [s.includes(needle)] *)
Definition includes (s needle : jsstring) : bool :=
  negb (indexOf s needle =? -1).

Definition lokiHintLabel : jsstring :=
  lit "Using Loki as a Prometheus data source is no longer supported. You must use the Loki data source for your Loki instance.".

Definition lookupsHintLabel : jsstring :=
  lit "Labels and metrics lookup was disabled in data source settings.".

Section InitHints.
Variable H : Host.

(** [getInitHints(datasource)] *)
Definition getInitHints (datasource : InitDatasource) : list (QueryHint H) :=
  let hints :=
    if includes (directUrl datasource) (lit "/loki")
       && (List.length (languageProvider_metrics datasource) =? 0)%nat
    then [mkHint H (lit "INFO") lokiHintLabel None]
    else [] in
  hints ++
  (if lookupsDisabled datasource
   then [mkHint H (lit "INFO") lookupsHintLabel None]
   else []).
End InitHints.

(** The hint types in the order in which [getQueryHints] pushes them. *)
Definition hintOrder : list jsstring :=
  [lit "HISTOGRAM_QUANTILE"; lit "APPLY_RATE"; lit "EXPAND_RULES";
   lit "ADD_SUM"; lit "SAFE_INTERVAL"].

Definition optional {A : Type} (b : bool) (a : A) : list A :=
  if b then [a] else [].

(** The code units of a decimal numeral. *)
Fixpoint digitsOf (u : Decimal.uint) : jsstring :=
  match u with
  | Decimal.Nil => []
  | Decimal.D0 u' => 48%N :: digitsOf u'
  | Decimal.D1 u' => 49%N :: digitsOf u'
  | Decimal.D2 u' => 50%N :: digitsOf u'
  | Decimal.D3 u' => 51%N :: digitsOf u'
  | Decimal.D4 u' => 52%N :: digitsOf u'
  | Decimal.D5 u' => 53%N :: digitsOf u'
  | Decimal.D6 u' => 54%N :: digitsOf u'
  | Decimal.D7 u' => 55%N :: digitsOf u'
  | Decimal.D8 u' => 56%N :: digitsOf u'
  | Decimal.D9 u' => 57%N :: digitsOf u'
  end.

(** [String(n)] for an integer [n]. *)
Definition showInt (n : Z) : jsstring :=
  match Z.to_int n with
  | Decimal.Pos u => digitsOf u
  | Decimal.Neg u => 45%N :: digitsOf u
  end.

(** A host for the patterns that the function builds from names made of
    word characters: [\bname\b] finds [name] as a whole word, a bare name
    finds it anywhere.  Numbers are integers, intervals are [15s] and
    [1m]. *)
Definition wordHost : Host :=
  mkHost Z (fun x => negb (x =? 0)) Z.ltb 0 showInt
         (fun s => map (fun c => if ((65 <=? c) && (c <=? 90))%N
                                 then (c + 32)%N else c) s)
         (fun pattern subject =>
            if startsWith (lit "\b") pattern && endsWith (lit "\b") pattern
            then
              let name := firstn (List.length pattern - 4) (skipn 2 pattern) in
              Some (existsb (jsstring_eqb name) (wordRuns subject []))
            else Some (includes subject pattern))
         (fun i => if jsstring_eqb i (lit "15s") then Some 15
                   else if jsstring_eqb i (lit "1m") then Some 60
                   else None)
         unit unit jsstring.

(** A data source for [wordHost]: one counter in the metadata, one
    recording rule, a range of an hour and a safe interval of a hundredth
    of the range. *)
Definition demoDatasource : PrometheusDatasource wordHost :=
  mkDatasource wordHost
    (Some [(lit "http_requests_total", [mkMetadataItem (lit "Counter")])])
    (Some [(lit "job:rate5m", lit "sum by (job) (rate(http_requests_total[5m]))")])
    (fun _ => Some 3600)
    (fun range => range / 100).

Definition bucketQuery : PromQuery :=
  mkPromQuery (Some (lit " http_request_duration_seconds_bucket ")) None None.
Definition rateQuery : PromQuery :=
  mkPromQuery (Some (lit "rate(http_requests_total[5m])")) None None.
Definition counterQuery : PromQuery :=
  mkPromQuery (Some (lit "http_requests_total")) None None.
Definition ruleQuery : PromQuery :=
  mkPromQuery (Some (lit "job:rate5m > 1")) None (Some (lit "exact")).
Definition badIntervalQuery : PromQuery :=
  mkPromQuery (Some (lit "up")) (Some (lit "soon")) None.

End QueryHints.

(* ================================================================== *)
(** * Part II: properties                                              *)
(* ================================================================== *)

(** ** The state machine *)
Module StateManagerFacts.
Import StateManager.

Example firing_twice_alerts :
  statePath rule10 10 100 (instanceIn Normal 90) [VFiring; VFiring; VNormal]
  = [Pending; Alerting; Normal].
Proof. reflexivity. Qed.

Example firing_once_does_not_alert :
  statePath rule10 10 100 (instanceIn Normal 90) [VFiring; VNormal]
  = [Pending; Normal].
Proof. reflexivity. Qed.

Lemma processVerdict_fanout (r : AlertRule) (i : AlertInstance) (v : Verdict)
  (now : Z) :
  snd (processVerdict r i v now)
  = boundaryFanOut (state i) (state (fst (processVerdict r i v now))).
Proof.
  unfold processVerdict, onFiring, onNormal, onError.
  destruct v, (noDataPolicy r), (state i) eqn:E; simpl;
    try rewrite E; try reflexivity;
    destruct (pendingDuration r <=? now - stateEntry i); simpl;
    try rewrite E; reflexivity.
Qed.

Lemma fanOuts_crossings (r : AlertRule) (B : Z) (vs : list Verdict) :
  forall now i,
    fanOuts r B now i vs = crossings (state i) (statePath r B now i vs).
Proof.
  induction vs as [|v vs IH]; intros now i; simpl.
  - reflexivity.
  - rewrite processVerdict_fanout, IH. reflexivity.
Qed.

Lemma statePath_alerting (r : AlertRule) (B : Z) (k : nat) :
  forall now i, state i = Alerting ->
    statePath r B now i (repeat VFiring k ++ [VNormal])
    = repeat Alerting k ++ [Normal].
Proof.
  induction k as [|k IH]; intros now i Hi; simpl.
  - unfold onNormal. rewrite Hi. reflexivity.
  - unfold onFiring. rewrite Hi. simpl. rewrite Hi. f_equal.
    apply IH. exact Hi.
Qed.

Lemma alertingEntries_alerting (k : nat) :
  alertingEntries Alerting (repeat Alerting k ++ [Normal]) = O.
Proof. induction k as [|k IH]; simpl; auto. Qed.

Lemma last_alerting (k : nat) :
  last (repeat Alerting k ++ [Normal]) Normal = Normal.
Proof. rewrite last_last. reflexivity. Qed.

Lemma fanOuts_alerting (r : AlertRule) (B : Z) (k : nat) :
  forall now i, state i = Alerting -> fanOuts r B now i (repeat VFiring k) = [].
Proof.
  induction k as [|k IH]; intros now i Hi; simpl.
  - reflexivity.
  - unfold onFiring. rewrite Hi. simpl. apply IH. exact Hi.
Qed.

(** From [Pending], [k] Firing verdicts and then a Normal one: the instance
    enters [Alerting] once if the pending duration has elapsed by the last
    Firing verdict, and not at all otherwise. *)
Lemma statePath_pending (r : AlertRule) (B : Z) (HB : 0 < B) (k : nat) :
  forall now i, state i = Pending ->
    let path := statePath r B now i (repeat VFiring k ++ [VNormal]) in
    let reached :=
      (1 <=? Z.of_nat k)
      && (pendingDuration r <=? now - stateEntry i + (Z.of_nat k - 1) * B) in
    alertingEntries Pending path = (if reached then 1%nat else O)
    /\ (In Alerting path <-> reached = true)
    /\ last path Normal = Normal.
Proof.
  induction k as [|k IH]; intros now i Hi.
  - simpl. unfold onNormal. rewrite Hi. simpl.
    repeat split; try discriminate. intros [H|[]]. discriminate.
  - cbn zeta. change (repeat VFiring (S k) ++ [VNormal])
      with (VFiring :: (repeat VFiring k ++ [VNormal])).
    cbn [statePath processVerdict]. unfold onFiring. rewrite Hi.
    assert (Hk : 0 <= Z.of_nat k * B) by (apply Z.mul_nonneg_nonneg; lia).
    destruct (Z.leb_spec (pendingDuration r) (now - stateEntry i)) as [Hle|Hgt].
    + cbn [fst enter state].
      rewrite statePath_alerting by reflexivity.
      cbn [alertingEntries State_eqb negb andb].
      rewrite alertingEntries_alerting.
      replace ((1 <=? Z.of_nat (S k))
               && (pendingDuration r <=?
                   now - stateEntry i + (Z.of_nat (S k) - 1) * B)) with true.
      * split; [reflexivity|]. split.
        -- split; [reflexivity | intros _; left; reflexivity].
        -- change (Alerting :: repeat Alerting k ++ [Normal])
             with (repeat Alerting (S k) ++ [Normal]).
           apply last_alerting.
      * symmetry. apply andb_true_iff. split; apply Z.leb_le; lia.
    + cbn [fst refresh state]. rewrite Hi.
      specialize (IH (now + B) (refresh now i) Hi).
      cbn zeta in IH. cbn [refresh stateEntry] in IH.
      destruct IH as (IH1 & IH2 & IH3).
      set (path := statePath r B (now + B) (refresh now i)
                     (repeat VFiring k ++ [VNormal])) in *.
      assert (Hcond :
        (1 <=? Z.of_nat k)
        && (pendingDuration r <=?
            now + B - stateEntry i + (Z.of_nat k - 1) * B)
        = (1 <=? Z.of_nat (S k))
          && (pendingDuration r <=?
              now - stateEntry i + (Z.of_nat (S k) - 1) * B)).
      { destruct (Z.leb_spec 1 (Z.of_nat k)) as [H1|H1].
        - replace (1 <=? Z.of_nat (S k)) with true
            by (symmetry; apply Z.leb_le; lia).
          cbn [andb]. f_equal. rewrite Nat2Z.inj_succ. lia.
        - assert (k = O) by lia. subst k. cbn [andb].
          change (1 <=? Z.of_nat 1) with true. cbn [andb].
          symmetry. apply Z.leb_gt. change (Z.of_nat 1) with 1. lia. }
      rewrite <- Hcond.
      cbn [alertingEntries State_eqb negb andb]. split; [exact IH1|]. split.
      * rewrite <- IH2. split; [intros [H|H]; [discriminate|exact H] | right; assumption].
      * destruct path eqn:Hp; [|exact IH3].
        exfalso. unfold path in Hp. destruct k; discriminate.
Qed.

(** C2.  Every step of the state machine invokes the fan-out exactly once
    when it crosses the Normal/Alerting boundary ([Pending -> Alerting]
    fires, [Alerting -> Normal] resolves; [Normal -> Alerting] would fire)
    and not at all otherwise; along a run the invocations are exactly the
    crossings, and Firing verdicts repeated in [Alerting] invoke nothing. *)
Theorem fanout_once_per_boundary_crossing (r : AlertRule) (B now : Z)
  (i : AlertInstance) (v : Verdict) (vs : list Verdict) (k : nat)
  (entry last : Z) :
  snd (processVerdict r i v now)
    = boundaryFanOut (state i) (state (fst (processVerdict r i v now)))
  /\ List.length (snd (processVerdict r i v now))
     = (if (negb (State_eqb (state i) Alerting)
            && State_eqb (state (fst (processVerdict r i v now))) Alerting)
           || (State_eqb (state i) Alerting
               && State_eqb (state (fst (processVerdict r i v now))) Normal)
        then 1%nat else O)
  /\ fanOuts r B now i vs = crossings (state i) (statePath r B now i vs)
  /\ fanOuts r B now
       (mkAlertInstance (instRuleUID i) (labels i) Alerting entry last)
       (repeat VFiring k) = []
  /\ processVerdict r
       (mkAlertInstance (instRuleUID i) (labels i) Pending entry last)
       VFiring now
     = (if pendingDuration r <=? now - entry
        then (mkAlertInstance (instRuleUID i) (labels i) Alerting now now,
              [Fires])
        else (mkAlertInstance (instRuleUID i) (labels i) Pending entry now,
              [])).
Proof.
  split; [apply processVerdict_fanout|].
  split.
  { unfold processVerdict, onFiring, onNormal, onError.
    destruct v, (noDataPolicy r), (state i) eqn:E; simpl;
      try rewrite E; try reflexivity;
      destruct (pendingDuration r <=? now - stateEntry i); simpl;
      try rewrite E; reflexivity. }
  split; [apply fanOuts_crossings|].
  split; [apply fanOuts_alerting; reflexivity|].
  unfold processVerdict, onFiring. simpl.
  destruct (pendingDuration r <=? now - entry); reflexivity.
Qed.

(** C3, as stated, fails.  One Firing verdict takes a Normal instance to
    [Pending] only, however short the pending duration: with [B = 10] and a
    pending duration of 10,
    [k = 1] satisfies [k * B >= pendingDuration] and yet the instance never
    is in [Alerting]. *)
Lemma pendingClaim_fails_for_one_firing :
  ~ pendingClaim rule10 10 100 (newInstance "rule-1" [] 100) 1.
Proof.
  unfold pendingClaim. intros [[_ H] _].
  assert (Hk : Z.of_nat 1 * 10 >= pendingDuration rule10)
    by (vm_compute; discriminate).
  specialize (H Hk). vm_compute in H. discriminate.
Qed.

(** C3 (amended).  From [Normal], [k] Firing verdicts [B] apart followed by
    one Normal verdict take the instance to [Alerting] exactly once iff
    [k >= 2] and [(k - 1) * B >= pendingDuration]: the first Firing verdict
    enters [Pending], and the pending duration runs from that entry.
    Otherwise the instance never is in [Alerting].  Either way it ends in
    [Normal]. *)
Theorem pending_duration_hysteresis (r : AlertRule) (B t0 : Z)
  (i : AlertInstance) (k : nat) (HB : 0 < B) (Hi : state i = Normal) :
  let path := statePath r B t0 i (repeat VFiring k ++ [VNormal]) in
  let reaches := (2 <= k)%nat /\ (Z.of_nat k - 1) * B >= pendingDuration r in
  (alertingEntries Normal path = 1%nat <-> reaches)
  /\ (~ reaches -> ~ In Alerting path)
  /\ (alertingEntries Normal path <= 1)%nat
  /\ last path Normal = Normal.
Proof.
  cbn zeta. destruct k as [|k].
  - cbn [repeat app statePath processVerdict]. unfold onNormal.
    rewrite Hi. cbn [fst refresh state alertingEntries]. rewrite Hi.
    cbn [State_eqb negb andb Nat.add last].
    split; [split; [discriminate | intros [H2 _]; lia]|].
    split; [intros _ [Hin|[]]; discriminate|].
    split; [lia | reflexivity].
  - change (repeat VFiring (S k) ++ [VNormal])
      with (VFiring :: (repeat VFiring k ++ [VNormal])).
    cbn [statePath processVerdict]. unfold onFiring. rewrite Hi.
    cbn [fst state]. unfold enter. cbn [state].
    pose proof (statePath_pending r B HB k (t0 + B)
                  (mkAlertInstance (instRuleUID i) (labels i) Pending t0 t0)
                  eq_refl) as HP.
    cbn zeta in HP. cbn [stateEntry] in HP.
    destruct HP as (HP1 & HP2 & HP3).
    set (path := statePath r B (t0 + B)
                   (mkAlertInstance (instRuleUID i) (labels i) Pending t0 t0)
                   (repeat VFiring k ++ [VNormal])) in *.
    cbn [alertingEntries State_eqb negb andb]. rewrite ?Nat.add_0_l.
    assert (Hreach :
      (1 <=? Z.of_nat k)
      && (pendingDuration r <=? t0 + B - t0 + (Z.of_nat k - 1) * B) = true
      <-> (2 <= S k)%nat /\ (Z.of_nat (S k) - 1) * B >= pendingDuration r).
    { rewrite andb_true_iff, !Z.leb_le, Nat2Z.inj_succ. split.
      - intros [H1 H2]. split; lia.
      - intros [H1 H2]. split; lia. }
    rewrite HP1.
    destruct ((1 <=? Z.of_nat k)
              && (pendingDuration r <=? t0 + B - t0 + (Z.of_nat k - 1) * B))
      eqn:Hc.
    + split; [split; [intros _; apply Hreach; reflexivity | reflexivity]|].
      split; [intros Hn; exfalso; apply Hn, Hreach; reflexivity|].
      split; [lia|].
      destruct path eqn:Hp; [|exact HP3].
      exfalso. unfold path in Hp. destruct k; discriminate.
    + split; [split; [discriminate | intros H; apply Hreach in H; discriminate]|].
      split.
      * intros _ [H|H]; [discriminate|]. apply HP2 in H. discriminate.
      * split; [lia|].
        destruct path eqn:Hp; [|exact HP3].
        exfalso. unfold path in Hp. destruct k; discriminate.
Qed.

Lemma pending_duration_hysteresis_witness :
  0 < 10 /\ state (newInstance "rule-1" [] 100) = Normal
  /\ (alertingEntries Normal
        (statePath rule10 10 100 (newInstance "rule-1" [] 100)
           (repeat VFiring 3 ++ [VNormal])) = 1%nat
      <-> (2 <= 3)%nat /\ (Z.of_nat 3 - 1) * 10 >= pendingDuration rule10).
Proof.
  split; [lia|]. split; [reflexivity|].
  apply (pending_duration_hysteresis rule10 10 100
           (newInstance "rule-1" [] 100) 3);
    [lia | reflexivity].
Defined.

End StateManagerFacts.

(** ** The scheduler *)
Module SchedulerFacts.
Import StateManager Scheduler.

Example everyMinute_due :
  filter (fun t => isDue 10 t everyMinute) (ticksFrom 0 20) = [2; 8; 14].
Proof. reflexivity. Qed.

Example every15s_never_due :
  filter (fun t => isDue 10 t every15s) (ticksFrom 0 20) = [].
Proof. reflexivity. Qed.

(** Crossing from [x - 1] to [x] raises the quotient by [f] exactly at the
    multiples of [f]. *)
Lemma div_step (f x : Z) : 0 < f ->
  x / f - (x - 1) / f = if x mod f =? 0 then 1 else 0.
Proof.
  intros Hf.
  pose proof (Z.div_mod x f ltac:(lia)) as Hx.
  pose proof (Z.mod_pos_bound x f Hf) as Hb.
  destruct (Z.eqb_spec (x mod f) 0) as [E|E].
  - assert ((x - 1) / f = x / f - 1); [|lia].
    symmetry. apply (Z.div_unique_pos (x - 1) f (x / f - 1) (f - 1)); lia.
  - assert ((x - 1) / f = x / f); [|lia].
    symmetry. apply (Z.div_unique_pos (x - 1) f (x / f) (x mod f - 1)); lia.
Qed.

Lemma ticksFrom_S (t0 : Z) (N : nat) :
  ticksFrom t0 (S N) = ticksFrom t0 N ++ [t0 + Z.of_nat N].
Proof.
  unfold ticksFrom. rewrite seq_S, map_app. reflexivity.
Qed.

Section Due.
Variables (B : Z) (r : AlertRule).
Hypothesis HB : 0 < B.
Hypothesis HI : 0 < interval r.
Hypothesis Hen : enabled r = true.
Hypothesis Hmult : interval r mod B = 0.

Let f := interval r / B.

Lemma frequency_pos : 0 < f.
Proof.
  unfold f. apply Z.div_str_pos. split; [lia|].
  apply Z.mod_divide in Hmult; [|lia].
  apply Z.divide_pos_le; assumption.
Qed.

Lemma isDue_multiple (tick : Z) :
  isDue B tick r = ((tick - phaseOffset r) mod f =? 0).
Proof.
  unfold isDue. rewrite Hen, Hmult. reflexivity.
Qed.

(** The dispatches across [N] ticks from [t0], as a difference of
    quotients. *)
Lemma dispatchCount_div (t0 : Z) (N : nat) :
  Z.of_nat (dispatchCount B r t0 N)
  = (t0 + Z.of_nat N - 1 - phaseOffset r) / f
    - (t0 - 1 - phaseOffset r) / f.
Proof.
  unfold dispatchCount. induction N as [|N IH].
  - simpl. replace (t0 + 0 - 1 - phaseOffset r)
      with (t0 - 1 - phaseOffset r) by lia. lia.
  - rewrite ticksFrom_S, filter_app, length_app, Nat2Z.inj_add, IH.
    cbn [filter]. rewrite isDue_multiple.
    pose proof (div_step f (t0 + Z.of_nat N - phaseOffset r) frequency_pos)
      as Hs.
    replace (t0 + Z.of_nat N - phaseOffset r - 1)
      with (t0 + Z.of_nat N - 1 - phaseOffset r) in Hs by lia.
    replace (t0 + Z.of_nat (S N) - 1 - phaseOffset r)
      with (t0 + Z.of_nat N - phaseOffset r) by lia.
    destruct ((t0 + Z.of_nat N - phaseOffset r) mod f =? 0);
      cbn [List.length Z.of_nat]; lia.
Qed.

Lemma dispatchCount_bounds (t0 : Z) (N : nat) :
  Z.of_nat N / f <= Z.of_nat (dispatchCount B r t0 N) <= Z.of_nat N / f + 1.
Proof.
  rewrite dispatchCount_div.
  pose proof frequency_pos as Hf.
  set (a := t0 - 1 - phaseOffset r).
  replace (t0 + Z.of_nat N - 1 - phaseOffset r) with (a + Z.of_nat N) by (unfold a; lia).
  pose proof (Z.div_mod a f ltac:(lia)) as Ha.
  pose proof (Z.mod_pos_bound a f Hf) as Hab.
  pose proof (Z.div_mod (Z.of_nat N) f ltac:(lia)) as Hn.
  pose proof (Z.mod_pos_bound (Z.of_nat N) f Hf) as Hnb.
  destruct (Z_lt_le_dec (a mod f + Z.of_nat N mod f) f) as [Hlt|Hge].
  - assert ((a + Z.of_nat N) / f = a / f + Z.of_nat N / f); [|lia].
    symmetry.
    apply (Z.div_unique_pos _ f _ (a mod f + Z.of_nat N mod f)); lia.
  - assert ((a + Z.of_nat N) / f = a / f + Z.of_nat N / f + 1); [|lia].
    symmetry.
    apply (Z.div_unique_pos _ f _ (a mod f + Z.of_nat N mod f - f)); lia.
Qed.

Lemma dispatchCount_exact (t0 : Z) (N : nat) :
  Z.of_nat N mod f = 0 ->
  Z.of_nat (dispatchCount B r t0 N) = Z.of_nat N / f.
Proof.
  intros Hd. rewrite dispatchCount_div.
  pose proof frequency_pos as Hf.
  set (a := t0 - 1 - phaseOffset r).
  replace (t0 + Z.of_nat N - 1 - phaseOffset r) with (a + Z.of_nat N) by (unfold a; lia).
  pose proof (Z.div_mod a f ltac:(lia)) as Ha.
  pose proof (Z.mod_pos_bound a f Hf) as Hab.
  pose proof (Z.div_mod (Z.of_nat N) f ltac:(lia)) as Hn.
  assert ((a + Z.of_nat N) / f = a / f + Z.of_nat N / f); [|lia].
  symmetry. apply (Z.div_unique_pos _ f _ (a mod f)); lia.
Qed.
End Due.

(** C5.  An enabled rule whose interval [I] is a multiple of the base
    interval [B] is due exactly on the ticks whose counter, shifted by the
    rule's phase offset, is [0] modulo [I / B] (the counter itself when the
    offset is [0]); across [N] consecutive ticks from any tick it is
    dispatched [N / (I / B)] times or once more, according to where the
    window starts, and exactly [N / (I / B)] times when [I / B] divides [N].
    A rule whose interval is not a multiple of [B] is never due. *)
Theorem dispatch_cadence (B : Z) (r : AlertRule)
  (HB : 0 < B) (HI : 0 < interval r) (Hen : enabled r = true) :
  (interval r mod B = 0 ->
     (forall tick,
         isDue B tick r = true
         <-> (tick - phaseOffset r) mod (interval r / B) = 0)
     /\ (phaseOffset r = 0 ->
         forall tick, isDue B tick r = true <-> tick mod (interval r / B) = 0)
     /\ (forall t0 N,
            Z.of_nat N / (interval r / B)
            <= Z.of_nat (dispatchCount B r t0 N)
            <= Z.of_nat N / (interval r / B) + 1)
     /\ (forall t0 N,
            Z.of_nat N mod (interval r / B) = 0 ->
            Z.of_nat (dispatchCount B r t0 N)
            = Z.of_nat N / (interval r / B)))
  /\ (interval r mod B <> 0 ->
      (forall tick, isDue B tick r = false)
      /\ forall t0 N, dispatchCount B r t0 N = O).
Proof.
  split.
  - intros Hmult.
    assert (Hdue : forall tick,
               isDue B tick r = true
               <-> (tick - phaseOffset r) mod (interval r / B) = 0).
    { intros tick. rewrite (isDue_multiple B r Hen Hmult). apply Z.eqb_eq. }
    split; [exact Hdue|]. split.
    { intros H0 tick. rewrite Hdue, H0, Z.sub_0_r. reflexivity. }
    split.
    + intros t0 N. apply dispatchCount_bounds; assumption.
    + intros t0 N. apply dispatchCount_exact; assumption.
  - intros Hn.
    assert (Hdue : forall tick, isDue B tick r = false).
    { intros tick. unfold isDue.
      destruct (Z.eqb_spec (interval r mod B) 0); [contradiction|].
      rewrite andb_false_r. reflexivity. }
    split; [exact Hdue|].
    intros t0 N. unfold dispatchCount.
    induction (ticksFrom t0 N) as [|t ts IH]; simpl; [reflexivity|].
    rewrite Hdue. exact IH.
Qed.

Lemma dispatch_cadence_witness :
  0 < 10 /\ 0 < interval everyMinute /\ enabled everyMinute = true
  /\ interval everyMinute mod 10 = 0
  /\ Z.of_nat (dispatchCount 10 everyMinute 0 18) = Z.of_nat 18 / (60 / 10).
Proof.
  split; [lia|]. split; [reflexivity|]. split; [reflexivity|].
  split; [reflexivity|].
  apply (proj1 (dispatch_cadence 10 everyMinute eq_refl eq_refl eq_refl)
           eq_refl).
  reflexivity.
Defined.

End SchedulerFacts.

Module NgalertFacts.
Import Ngalert.

Example init_default_base :
  baseIntervalOf 0 = 10000000000.
Proof. reflexivity. Qed.

(** *** Start-up *)

Lemma IsDisabled_iff (ng : AlertNG) :
  IsDisabled ng = true <->
  ng_Cfg ng = None \/ exists c, ng_Cfg ng = Some c /\ IsNgAlertEnabled c = false.
Proof.
  unfold IsDisabled. destruct (ng_Cfg ng) as [c|].
  - destruct (IsNgAlertEnabled c) eqn:E; simpl; split.
    + discriminate.
    + intros [H | (c' & H & H')]; [discriminate | congruence].
    + intros _. right. exists c. auto.
    + reflexivity.
  - split; auto.
Qed.

Lemma init_sync_failed (ng : AlertNG) (c : Cfg) (e : error) (w : World) :
  ng_Cfg ng = Some c -> syncOutcome w = Some e ->
  exists w',
    init ng w =
      Ret (Some e,
           mkAlertNG (Some c) (ng_schedule ng) (ng_stateManager ng)
             (Some (mkMOA (mkDBstore (baseIntervalOf (AlertingBaseInterval c))
                                     defaultIntervalSeconds)))) w'
    /\ syncOutcome w' = Some e
    /\ effects w' =
         effects w ++
         [EffNewMultiOrgAlertmanager
            (mkDBstore (baseIntervalOf (AlertingBaseInterval c))
                       defaultIntervalSeconds);
          EffLoadAndSyncAlertmanagersForOrgs].
Proof.
  intros Hc Hs. unfold init. rewrite Hc.
  unfold bind, NewMultiOrgAlertmanager, LoadAndSyncAlertmanagersForOrgs,
    perform, ret, bind; simpl.
  rewrite Hs. eexists. split; [reflexivity|]. simpl. split; [auto|].
  rewrite <- app_assoc. reflexivity.
Qed.

Lemma init_sync_ok (ng : AlertNG) (c : Cfg) (w : World) :
  ng_Cfg ng = Some c -> syncOutcome w = None ->
  exists sch mgr moa w',
    init ng w = Ret (None, mkAlertNG (Some c) (Some sch) (Some mgr) (Some moa)) w'
    /\ sch_cfg sch =
         mkSchedulerCfg (baseIntervalOf (AlertingBaseInterval c)) maxAttempts
           (mkDBstore (baseIntervalOf (AlertingBaseInterval c))
                      defaultIntervalSeconds)
           (AdminConfigPollInterval c)
    /\ sch_stateManager sch = mgr
    /\ existsb startsComponent (effects w') = true.
Proof.
  intros Hc Hs. unfold init. rewrite Hc.
  unfold bind, NewMultiOrgAlertmanager, LoadAndSyncAlertmanagersForOrgs,
    NewManager, NewScheduler, perform, ret, bind; simpl.
  rewrite Hs. do 4 eexists. split; [reflexivity|]. simpl.
  repeat split.
  rewrite !existsb_app. simpl. rewrite !orb_true_r. reflexivity.
Qed.

(** The scheduler that a successful [init] builds has the retry budget
    [maxAttempts]. *)
Lemma init_scheduler_budget (ng ng' : AlertNG) (c : Cfg) (w w' : World) :
  ng_Cfg ng = Some c -> init ng w = Ret (None, ng') w' ->
  exists sch, ng_schedule ng' = Some sch
              /\ MaxAttempts (sch_cfg sch) = maxAttempts.
Proof.
  intros Hc Hi. destruct (syncOutcome w) as [e|] eqn:Hs.
  - destruct (init_sync_failed ng c e w Hc Hs) as (w1 & Hf & _).
    rewrite Hf in Hi. discriminate.
  - destruct (init_sync_ok ng c w Hc Hs)
      as (sch & mgr & moa & w1 & Hok & Hcfg & _).
    rewrite Hok in Hi. inversion Hi; subst.
    exists sch. split; [reflexivity|]. rewrite Hcfg. reflexivity.
Qed.

(** *** [Run]: invariants of the transition system *)

Lemma ticksAfterWarm_split (tr later earlier : list Event) (n : nat) :
  ticksAfterWarm tr -> tr = later ++ EvTick n :: earlier ->
  In EvWarmReturn earlier.
Proof.
  revert tr. induction later as [|e later IH]; intros tr Htr ->; simpl in Htr.
  - tauto.
  - destruct Htr as [_ Htr]. eapply IH; eauto.
Qed.

Lemma isFinished_rank (l : Loop) : isFinished l = true <-> loopRank l = 2%nat.
Proof. destruct l; simpl; split; congruence. Qed.

Ltac exec_cases Hex :=
  match type of Hex with
  | exec _ ?a ?s = Some _ =>
      unfold exec in Hex;
      destruct a; destruct s as [p sc al cd gc ge tc ps tb tr]; simpl in *;
      repeat match type of Hex with
             | context [match ?x with _ => _ end] =>
                 destruct x eqn:?; simpl in *; try discriminate
             end;
      inversion Hex; subst; clear Hex; simpl in *
  end.

Lemma Inv_enter store : Inv store (enterRun store).
Proof.
  constructor; simpl; try tauto; try lia; try reflexivity; discriminate.
Qed.

Section RunFacts.
Variable L : Loops.

Lemma Inv_exec store (s s' : RunState) (a : Action) :
  Inv store s -> exec L a s = Some s' -> Inv store s'.
Proof.
  intros [I1 I2 I3 I4 I5 I6 I7 I8 I9] Hex.
  exec_cases Hex;
    rewrite ?andb_true_iff, ?isFinished_rank in *;
    constructor; simpl; unfold warmCalls, StateManager.Warm in *; simpl in *;
    try assumption; try reflexivity; try lia; try tauto;
    try (intros; lia); try (split; intros; (lia || discriminate));
    try discriminate; try congruence.
  all: try (intros _; split; [ tauto | congruence ]).
  all: try (intros _; apply I2; lia).
  all: try (intros; split; [ right; apply I2; lia | apply I2; lia ]).
  all: try (split; [ | assumption ]; apply I2).
  all: try (split; intros; destruct I4; destruct I5; lia).
  all: try (destruct I4; simpl in *; lia).
  all: try (intros r0 Hp; subst p; simpl in I7; destruct (I7 eq_refl);
            discriminate).
  all: unfold recordErr; simpl;
       try (destruct r as [e1|]); try (destruct ge as [g|]); simpl;
       intros e0 He0; try discriminate;
       try (injection He0 as <-);
       try (left; reflexivity); try (right; reflexivity);
       match goal with
       | I : forall e, Some ?g = Some e -> _ |- _ =>
           destruct (I g eq_refl) as [Hx|Hx]
       end;
       try discriminate; subst;
       try (left; reflexivity); try (right; reflexivity);
       exfalso; simpl in *; destruct I4; destruct I5; lia.
Qed.

Lemma reachable_Inv store s : reachable L store s -> Inv store s.
Proof.
  induction 1; [apply Inv_enter | eapply Inv_exec; eauto].
Qed.

Lemma runActions_reachable store (acts : list Action) :
  forall s s', reachable L store s -> runActions L acts s = Some s' ->
               reachable L store s'.
Proof.
  induction acts as [|a acts IH]; simpl; intros s s' Hs Hrun.
  - congruence.
  - destruct (exec L a s) as [s1|] eqn:E; [|discriminate].
    eapply IH; [ eapply reach_exec; eauto | assumption ].
Qed.

(** C1.  In every execution of [Run], whatever the two loops do,
    [stateManager.Warm()] is called once, and it has returned, with every
    persisted instance loaded into the manager's table, before
    [schedule.Run] is started; hence every tick that the scheduler
    dispatches comes after the completed [Warm]. *)
Theorem Warm_completes_before_first_tick
  (store : list StateManager.AlertInstance) (s : RunState)
  (Hreach : reachable L store s) :
  (forall later n earlier,
      trace s = later ++ EvTick n :: earlier -> In EvWarmReturn earlier)
  /\ (warmCalls (trace s) <= 1)%nat
  /\ (sched s <> Unspawned ->
      warmCalls (trace s) = 1%nat /\ In EvWarmReturn (trace s)
      /\ table s = store).
Proof.
  pose proof (reachable_Inv _ _ Hreach) as [I1 I2 I3 I4 I5 I6 I7 _ _].
  split; [|split].
  - intros later n earlier Htr. eapply ticksAfterWarm_split; eauto.
  - rewrite I1. destruct (pcRank (pc s) <=? 1)%nat; lia.
  - intros Hs.
    assert (Hr : (5 <= pcRank (pc s))%nat).
    { destruct I4 as [_ I4]. destruct (sched s); simpl in *;
        [congruence | | ]; lia. }
    rewrite I1. destruct (Nat.leb_spec (pcRank (pc s)) 1); [lia|].
    split; [reflexivity|]. apply I2. lia.
Qed.

(** C6.  [Run] has returned only in states where both the scheduler loop and
    the Alertmanager loop have returned.  With loops that stop when their
    context is cancelled, once [ctx] is cancelled every further action
    brings the execution strictly closer to its end, and the execution can
    only end where both loops have returned and [Run] has. *)
Theorem Run_returns_after_both_loops
  (store : list StateManager.AlertInstance) (s : RunState)
  (Hreach : reachable L store s) :
  (forall r, pc s = Returned r ->
             isFinished (sched s) = true /\ isFinished (am s) = true)
  /\ (stopOnCancel L -> ctxDone s = true ->
      (forall a s', exec L a s = Some s' ->
                    ctxDone s' = true /\ (remaining s' < remaining s)%nat)
      /\ ((forall a, exec L a s = None) ->
          exists r, pc s = Returned r
                    /\ isFinished (sched s) = true
                    /\ isFinished (am s) = true)).
Proof.
  pose proof (reachable_Inv _ _ Hreach) as [I1 I2 I3 I4 I5 I6 I7 _ _].
  assert (Hjoin : forall r, pc s = Returned r ->
            isFinished (sched s) = true /\ isFinished (am s) = true).
  { intros r Hr. rewrite !isFinished_rank. apply I7. rewrite Hr. reflexivity. }
  split; [exact Hjoin|]. intros (Htick & (rs & Hrs) & (ra & Hra)) Hc. split.
  - intros a s' Hex. unfold remaining.
    exec_cases Hex; subst; unfold subCtxDone in *; simpl in *;
      try discriminate;
      rewrite ?andb_true_iff, ?isFinished_rank in *;
      try congruence;
      split; try reflexivity; try lia.
    + destruct I4 as [_ I4]. specialize (I4 ltac:(lia)).
      destruct sc; simpl in *; try discriminate; lia.
    + destruct I5 as [_ I5]. specialize (I5 ltac:(lia)).
      destruct al; simpl in *; try discriminate; lia.
  - intros Hstuck.
    destruct (pc s) eqn:Hpc;
      try (specialize (Hstuck ActMain); unfold exec in Hstuck;
           rewrite Hpc in Hstuck; discriminate).
    + (* AtWait *)
      destruct (sched s) eqn:Hsc.
      * destruct I4 as [I4 _]. simpl in I4. specialize (I4 eq_refl); lia.
      * specialize (Hstuck (ActScheduleReturn rs)). unfold exec in Hstuck.
        rewrite Hsc in Hstuck. unfold subCtxDone in Hstuck.
        rewrite Hc in Hstuck. simpl in Hstuck. rewrite Hrs in Hstuck.
        discriminate.
      * destruct (am s) eqn:Ham.
        -- destruct I5 as [I5 _]. simpl in I5. specialize (I5 eq_refl); lia.
        -- specialize (Hstuck (ActAlertmanagerReturn ra)).
           unfold exec in Hstuck.
           rewrite Ham in Hstuck. unfold subCtxDone in Hstuck.
           rewrite Hc in Hstuck. simpl in Hstuck. rewrite Hra in Hstuck.
           discriminate.
        -- specialize (Hstuck ActMain). unfold exec in Hstuck.
           rewrite Hpc, Hsc, Ham in Hstuck. discriminate.
    + exists r. split; [reflexivity|]. apply (Hjoin r). reflexivity.
Qed.

End RunFacts.

Example twoTicks_trace :
  option_map trace (runActions specLoops twoTicks (enterRun [])) =
  Some [EvTick 1; EvTick 0; EvAlertmanagerRun; EvScheduleRun; EvWarmReturn;
        EvWarmCall; EvLogDebug].
Proof. vm_compute. reflexivity. Qed.

Example cancelledRun_trace :
  option_map trace (runActions specLoops cancelledRun (enterRun [])) =
  Some [EvRunReturn None; EvScheduleReturn None; EvAlertmanagerReturn None;
        EvCancel; EvTick 0; EvAlertmanagerRun; EvScheduleRun; EvWarmReturn;
        EvWarmCall; EvLogDebug].
Proof. vm_compute. reflexivity. Qed.

(** The scheduler fails: the group cancels the context, the Alertmanager
    loop winds down, and [Run] returns the scheduler's error. *)
Example failedScheduler_trace :
  option_map trace
    (runActions specLoops
       [ActMain; ActMain; ActMain; ActMain; ActMain; ActMain;
        ActScheduleReturn (Some (mkError "boom"));
        ActAlertmanagerReturn None; ActMain]
       (enterRun [])) =
  Some [EvRunReturn (Some (mkError "boom")); EvAlertmanagerReturn None;
        EvScheduleReturn (Some (mkError "boom")); EvAlertmanagerRun;
        EvScheduleRun; EvWarmReturn; EvWarmCall; EvLogDebug].
Proof. vm_compute. reflexivity. Qed.

(** [Wait] does not return while a loop is still running, and no tick is
    dispatched before the scheduler is started. *)
Example wait_blocks :
  option_map pc
    (runActions specLoops
       [ActMain; ActMain; ActMain; ActMain; ActMain; ActMain;
        ActScheduleReturn (Some (mkError "boom")); ActMain]
       (enterRun [])) = None.
Proof. vm_compute. reflexivity. Qed.

Example no_tick_before_warm :
  option_map pc
    (runActions specLoops [ActMain; ActMain; ActTick] (enterRun [])) = None.
Proof. vm_compute. reflexivity. Qed.

Lemma specLoops_stopOnCancel : stopOnCancel specLoops.
Proof.
  split; [reflexivity|]. split; exists None; reflexivity.
Qed.

Lemma Warm_completes_before_first_tick_witness :
  reachable specLoops [] afterTwoTicks
  /\ (forall later n earlier,
         trace afterTwoTicks = later ++ EvTick n :: earlier ->
         In EvWarmReturn earlier)
  /\ (warmCalls (trace afterTwoTicks) <= 1)%nat
  /\ (sched afterTwoTicks <> Unspawned ->
      warmCalls (trace afterTwoTicks) = 1%nat
      /\ In EvWarmReturn (trace afterTwoTicks)
      /\ table afterTwoTicks = []).
Proof.
  assert (H : reachable specLoops [] afterTwoTicks).
  { apply (runActions_reachable specLoops [] twoTicks (enterRun [])).
    - apply reach_enter.
    - vm_compute. reflexivity. }
  split; [exact H|].
  apply (Warm_completes_before_first_tick specLoops [] afterTwoTicks H).
Defined.

Lemma Run_returns_after_both_loops_witness :
  reachable specLoops [] afterCancelledRun
  /\ stopOnCancel specLoops
  /\ ctxDone afterCancelledRun = true
  /\ (forall a, exec specLoops a afterCancelledRun = None)
  /\ exists r, pc afterCancelledRun = Returned r
               /\ isFinished (sched afterCancelledRun) = true
               /\ isFinished (am afterCancelledRun) = true.
Proof.
  assert (H : reachable specLoops [] afterCancelledRun).
  { apply (runActions_reachable specLoops [] cancelledRun (enterRun [])).
    - apply reach_enter.
    - vm_compute. reflexivity. }
  assert (Hstuck : forall a, exec specLoops a afterCancelledRun = None).
  { intros a. destruct a; reflexivity. }
  split; [exact H|]. split; [exact specLoops_stopOnCancel|].
  split; [reflexivity|]. split; [exact Hstuck|].
  apply (proj2 (proj2 (Run_returns_after_both_loops specLoops []
                         afterCancelledRun H)
                  specLoops_stopOnCancel eq_refl)).
  exact Hstuck.
Defined.

(** *** [Run] with loops that isolate their failures *)





(** With [isolatingLoops] a loop cannot return before the cancellation,
    with or without an error. *)
Example isolatingLoops_no_early_return :
  option_map pc
    (runActions isolatingLoops
       [ActMain; ActMain; ActMain; ActMain; ActMain; ActMain; ActTick;
        ActScheduleReturn (Some (mkError "rule store unavailable"))]
       (enterRun [])) = None.
Proof. vm_compute. reflexivity. Qed.



(** C8.  The defaults: whenever the configured base interval is not
    positive the base interval is 10 seconds; the default rule interval is
    60 seconds, 6 times the default base interval; at most 3 evaluation
    attempts. *)
Theorem configuration_defaults (configured : Z) (Hnonpos : configured <= 0) :
  baseIntervalOf configured = 10 * time_Second
  /\ defaultBaseIntervalSeconds = 10
  /\ defaultIntervalSeconds = 60
  /\ defaultIntervalSeconds = 6 * defaultBaseIntervalSeconds
  /\ defaultIntervalSeconds mod defaultBaseIntervalSeconds = 0
  /\ maxAttempts = 3.
Proof.
  unfold baseIntervalOf.
  destruct (Z.leb_spec configured 0); [|lia].
  repeat split.
Qed.

Lemma configuration_defaults_witness :
  -1 <= 0 /\ baseIntervalOf (-1) = 10 * time_Second.
Proof.
  split; [lia|].
  apply (configuration_defaults (-1)). lia.
Defined.

(** C9.  [IsDisabled] is true whenever [Cfg] is nil or ng-alert is not
    enabled in it, and then [ProvideService] returns the service and a nil
    error having done nothing but create the service's logger: no
    Alertmanager sync, no scheduler or state manager, no API
    registration. *)
Theorem disabled_service_is_not_initialised (cfg : option Cfg) (w : World)
  (Hoff : cfg = None \/ exists c, cfg = Some c /\ IsNgAlertEnabled c = false) :
  (forall ng, ng_Cfg ng = cfg -> IsDisabled ng = true)
  /\ ProvideService cfg w =
       Ret (Some (mkAlertNG cfg None None None), None)
           (mkWorld (syncOutcome w) (effects w ++ [EffLogNew "ngalert"])).
Proof.
  assert (Hd : forall ng, ng_Cfg ng = cfg -> IsDisabled ng = true).
  { intros ng Hng. apply IsDisabled_iff. rewrite Hng. exact Hoff. }
  split; [exact Hd|].
  unfold ProvideService, bind, perform.
  rewrite (Hd (mkAlertNG cfg None None None) eq_refl). reflexivity.
Qed.

Lemma disabled_service_is_not_initialised_witness :
  ProvideService None (freshWorld None) =
    Ret (Some (mkAlertNG None None None None), None)
        (mkWorld None [EffLogNew "ngalert"]).
Proof.
  apply (proj2 (disabled_service_is_not_initialised None (freshWorld None)
                  (or_introl eq_refl))).
Defined.

End NgalertFacts.

(** ** Evaluation tasks *)
Module EvaluationFacts.
Import StateManager Scheduler.

(** *** The retry budget *)

Section RetryFacts.
Variable Series : Type.
Variable reduce : Series -> Verdict.

Lemma attemptLoop_made (exec : nat -> option Series) (budget : nat) :
  forall made,
    (made <= snd (attemptLoop Series reduce exec budget made)
     <= made + budget)%nat.
Proof.
  induction budget as [|b IH]; intros made; simpl.
  - lia.
  - destruct (exec (S made)); simpl; [lia|].
    specialize (IH (S made)). lia.
Qed.

(** The loop stops at the first attempt that succeeds. *)
Lemma attemptLoop_first_success (exec : nat -> option Series)
  (budget : nat) :
  forall made n s,
    (made < n <= made + budget)%nat ->
    exec n = Some s ->
    (forall m, (made < m < n)%nat -> exec m = None) ->
    attemptLoop Series reduce exec budget made = (reduce s, n).
Proof.
  induction budget as [|b IH]; intros made n s Hn Hs Hfail; simpl.
  - lia.
  - destruct (Nat.eq_dec n (S made)) as [->|Hne].
    + rewrite Hs. reflexivity.
    + rewrite (Hfail (S made)) by lia.
      apply IH; [lia | assumption | intros m Hm; apply Hfail; lia].
Qed.

(** A success anywhere within the budget gives the verdict of the first
    success. *)
Lemma attemptLoop_some_success (exec : nat -> option Series) (budget : nat) :
  forall made n s,
    (made < n <= made + budget)%nat -> exec n = Some s ->
    exists n' s',
      (made < n' <= n)%nat /\ exec n' = Some s'
      /\ attemptLoop Series reduce exec budget made = (reduce s', n').
Proof.
  induction budget as [|b IH]; intros made n s Hn Hs; simpl.
  - lia.
  - destruct (exec (S made)) as [s1|] eqn:E.
    + exists (S made), s1. repeat split; [lia | lia | exact E].
    + assert (n <> S made) by congruence.
      destruct (IH (S made) n s ltac:(lia) Hs) as (n' & s' & Hn' & Hs' & Hl).
      exists n', s'. repeat split; [lia | lia | exact Hs' | exact Hl].
Qed.

Lemma attemptLoop_all_fail (exec : nat -> option Series) (budget : nat) :
  forall made,
    (forall m, (made < m <= made + budget)%nat -> exec m = None) ->
    attemptLoop Series reduce exec budget made
    = (VError, (made + budget)%nat).
Proof.
  induction budget as [|b IH]; intros made Hfail; simpl.
  - f_equal. lia.
  - rewrite (Hfail (S made)) by lia.
    rewrite IH; [f_equal; lia|]. intros m Hm. apply Hfail. lia.
Qed.

(** C4.  With the budget that [init] configures ([maxAttempts = 3]), an
    evaluation task makes at most 3 execution attempts; if an attempt
    within the budget succeeds, the task yields the verdict reduced from
    the first success, having made no further attempt; if all 3 fail it
    yields the Error verdict after exactly 3 attempts.  A tick yields a
    verdict for every due rule, each rule's from its own executions only,
    and the loop goes through every tick.  Every scheduler that [init]
    builds has this budget. *)
Theorem retry_budget (exec : nat -> option Series)
  (execOf : AlertRule -> Z -> nat -> option Series)
  (B : Z) (rules : list AlertRule) (ticks : list Z) :
  let res := evaluateRule Series reduce Ngalert.maxAttempts exec in
  (snd res <= 3)%nat
  /\ (forall n s,
         (1 <= n <= 3)%nat -> exec n = Some s ->
         (forall m, (1 <= m < n)%nat -> exec m = None) ->
         res = (reduce s, n))
  /\ (forall n s,
         (1 <= n <= 3)%nat -> exec n = Some s ->
         exists n' s', (1 <= n' <= n)%nat /\ exec n' = Some s'
                       /\ res = (reduce s', n'))
  /\ ((forall m, (1 <= m <= 3)%nat -> exec m = None) ->
      res = (VError, 3%nat))
  /\ (forall tick,
         map fst (processTick Series reduce Ngalert.maxAttempts B tick
                    execOf rules)
         = filter (isDue B tick) rules
         /\ forall r out,
             In (r, out)
                (processTick Series reduce Ngalert.maxAttempts B tick
                   execOf rules) ->
             out = evaluateRule Series reduce Ngalert.maxAttempts
                     (execOf r tick)
             /\ (snd out <= 3)%nat)
  /\ map fst (tickLoop Series reduce Ngalert.maxAttempts B execOf rules
                ticks) = ticks
  /\ (forall ng ng' c w w',
         Ngalert.ng_Cfg ng = Some c ->
         Ngalert.init ng w = Ngalert.Ret (None, ng') w' ->
         exists sch, Ngalert.ng_schedule ng' = Some sch
                     /\ Ngalert.MaxAttempts (Ngalert.sch_cfg sch) = 3).
Proof.
  cbn zeta. unfold evaluateRule.
  change (Z.to_nat Ngalert.maxAttempts) with 3%nat.
  split; [apply (attemptLoop_made exec 3 0)|].
  split.
  { intros n s Hn Hs Hfail.
    apply attemptLoop_first_success; [lia | exact Hs |].
    intros m Hm. apply Hfail. lia. }
  split.
  { intros n s Hn Hs.
    destruct (attemptLoop_some_success exec 3 0 n s ltac:(lia) Hs)
      as (n' & s' & Hn' & Hs' & Hl).
    exists n', s'. repeat split; [lia | lia | exact Hs' | exact Hl]. }
  split.
  { intros Hfail.
    apply (attemptLoop_all_fail exec 3 0). intros m Hm. apply Hfail. lia. }
  split.
  { intros tick. unfold processTick. split.
    - rewrite map_map. simpl. apply map_id.
    - intros r out Hin. apply in_map_iff in Hin.
      destruct Hin as (r' & Heq & _). inversion Heq; subst.
      split; [reflexivity|]. unfold evaluateRule.
      change (Z.to_nat Ngalert.maxAttempts) with 3%nat.
      apply (attemptLoop_made (execOf r tick) 3 0). }
  split.
  { unfold tickLoop. rewrite map_map. simpl. apply map_id. }
  intros ng ng' c w w' Hc Hi.
  exact (NgalertFacts.init_scheduler_budget ng ng' c w w' Hc Hi).
Qed.
End RetryFacts.

Example flaky_third_attempt :
  evaluateRule Z above5 Ngalert.maxAttempts flaky = (VFiring, 3%nat).
Proof. reflexivity. Qed.

Example always_failing :
  evaluateRule Z above5 Ngalert.maxAttempts (fun _ => None) = (VError, 3%nat).
Proof. reflexivity. Qed.

Lemma retry_budget_witness :
  (1 <= 3 <= 3)%nat /\ flaky 3 = Some 7
  /\ evaluateRule Z above5 Ngalert.maxAttempts flaky = (above5 7, 3%nat).
Proof.
  split; [lia|]. split; [reflexivity|].
  apply (proj1 (proj2 (retry_budget Z above5 flaky (fun _ _ => flaky) 10 [] []))
           3%nat 7).
  - lia.
  - reflexivity.
  - intros m Hm. destruct m as [|[|[|m]]]; try reflexivity; lia.
Defined.

End EvaluationFacts.

(** ** Query hints *)
Module QueryHintsFacts.
Import QueryHints.

Lemma HISTOGRAM_QUANTILE_ne : lit "HISTOGRAM_QUANTILE" <> lit "ADD_SUM".
Proof. intros E. vm_compute in E. discriminate. Qed.

Lemma APPLY_RATE_ne : lit "APPLY_RATE" <> lit "ADD_SUM".
Proof. intros E. vm_compute in E. discriminate. Qed.

Lemma EXPAND_RULES_ne : lit "EXPAND_RULES" <> lit "ADD_SUM".
Proof. intros E. vm_compute in E. discriminate. Qed.

Lemma SAFE_INTERVAL_ne : lit "SAFE_INTERVAL" <> lit "ADD_SUM".
Proof. intros E. vm_compute in E. discriminate. Qed.

Section WithHost.
Variable H : Host.

Lemma histogramHints_type (query : jsstring) (h : QueryHint H) :
  In h (histogramHints H query) -> hint_type H h <> lit "ADD_SUM".
Proof.
  unfold histogramHints. destruct (matchesBucket (trim query)).
  - intros [<-|[]]. exact HISTOGRAM_QUANTILE_ne.
  - intros [].
Qed.

Lemma rateHints_type (query : jsstring) ds (l : list (QueryHint H))
  (h : QueryHint H) :
  rateHints H query ds = Some l -> In h l ->
  hint_type H h <> lit "ADD_SUM".
Proof.
  unfold rateHints.
  destruct ((indexOf query (lit "rate(") =? -1)
            && (indexOf query (lit "increase(") =? -1));
    [|intros [= <-] []].
  match goal with
  | |- match ?c with _ => _ end = _ -> _ => destruct c as [[name certain]|]
  end; [|discriminate].
  destruct name as [|c name]; [intros [= <-] []|].
  intros [= <-] [<-|[]].
  destruct (matchesBareMetric (trim query)); exact APPLY_RATE_ne.
Qed.

Lemma ruleHints_type (query : jsstring) ds (l : list (QueryHint H))
  (h : QueryHint H) :
  ruleHints H query ds = Some l -> In h l ->
  hint_type H h <> lit "ADD_SUM".
Proof.
  unfold ruleHints.
  destruct ds as [ds|]; [|intros [= <-] []].
  destruct (ruleMappings H ds) as [mapping|]; [|intros [= <-] []].
  destruct (mappingForQuery H query mapping) as [[|m found]|];
    [intros [= <-] [] | | discriminate].
  intros [= <-] [<-|[]]. exact EXPAND_RULES_ne.
Qed.

Lemma intervalHints_type (pq : PromQuery) ds tr (l : list (QueryHint H))
  (h : QueryHint H) :
  intervalHints H pq ds tr = Some l -> In h l ->
  hint_type H h <> lit "ADD_SUM".
Proof.
  unfold intervalHints.
  destruct tr as [tr|]; [|intros [= <-] []].
  destruct (intervalToSeconds H _) as [seconds|]; [|discriminate].
  destruct ds as [ds|]; [|intros [= <-] []].
  match goal with
  | |- (if ?c then _ else _) = _ -> _ => destruct c
  end; [|intros [= <-] []].
  intros [= <-] [<-|[]]. exact SAFE_INTERVAL_ne.
Qed.

Lemma sumHints_In (query : jsstring) series (h : QueryHint H) :
  In h (sumHints H query series) <->
  h = addSumHint H query
  /\ exists l, series = Some l
               /\ (SUM_HINT_THRESHOLD_COUNT <= List.length l)%nat
               /\ matchesBareMetric (trim query) = true.
Proof.
  unfold sumHints. destruct series as [l|].
  - destruct (Nat.leb_spec SUM_HINT_THRESHOLD_COUNT (List.length l)) as [Hl|Hl].
    + destruct (matchesBareMetric (trim query)) eqn:Hm.
      * split.
        -- intros [<-|[]]. split; [reflexivity|]. exists l. auto.
        -- intros [-> _]. left. reflexivity.
      * split; [intros [] | intros (_ & l' & _ & _ & Hf); discriminate].
    + split; [intros [] | intros (_ & l' & [= <-] & Hl' & _); lia].
  - split; [intros [] | intros (_ & l' & Hs & _); discriminate].
Qed.

(** Without a data source and a time range nothing can throw. *)
Lemma getQueryHints_returns (pq : PromQuery) series :
  exists hints, getQueryHints H pq series None None = Some hints.
Proof.
  unfold getQueryHints, rateHints, ruleHints, intervalHints.
  cbn [map List.length Nat.ltb Nat.leb].
  destruct ((indexOf (queryOf pq) (lit "rate(") =? -1)
            && (indexOf (queryOf pq) (lit "increase(") =? -1)).
  - destruct (matchCounterName (queryOf pq)) as [[|c m]|]; eexists; reflexivity.
  - eexists; reflexivity.
Qed.

(** C10.  Whenever [getQueryHints] returns, its result contains a hint of
    type [ADD_SUM] iff a series array of length at least
    [SUM_HINT_THRESHOLD_COUNT] (20) was supplied and the trimmed query
    expression is a single bare metric name; every such hint's fix carries
    the original query with [preventSubmit] set.  Without a data source
    and a time range the function always returns. *)
Theorem getQueryHints_ADD_SUM (pq : PromQuery)
  (series : option (list (SeriesValue H)))
  (datasource : option (PrometheusDatasource H))
  (timeRange : option (TimeRange H)) (hints : list (QueryHint H))
  (Hret : getQueryHints H pq series datasource timeRange = Some hints) :
  ((exists h, In h hints /\ hint_type H h = lit "ADD_SUM")
   <-> exists l, series = Some l
                 /\ (20 <= List.length l)%nat
                 /\ matchesBareMetric (trim (queryOf pq)) = true)
  /\ (forall h, In h hints -> hint_type H h = lit "ADD_SUM" ->
        hint_fix H h
        = Some (mkFix H (lit "Consider aggregating with sum().")
                  (mkAction H (lit "ADD_SUM") (Some (queryOf pq)) None
                     (Some true))))
  /\ exists hints', getQueryHints H pq series None None = Some hints'.
Proof.
  unfold getQueryHints in Hret.
  destruct (rateHints H (queryOf pq) datasource) as [rate|] eqn:Hrate;
    [|discriminate].
  destruct (ruleHints H (queryOf pq) datasource) as [rules|] eqn:Hrules;
    [|discriminate].
  destruct (intervalHints H pq datasource timeRange) as [safe|] eqn:Hsafe;
    [|discriminate].
  injection Hret as <-.
  assert (Hsum : forall h,
             In h ((((histogramHints H (queryOf pq) ++ rate) ++ rules)
                    ++ sumHints H (queryOf pq) series) ++ safe) ->
             hint_type H h = lit "ADD_SUM" ->
             In h (sumHints H (queryOf pq) series)).
  { intros h Hin Ht. rewrite !in_app_iff in Hin.
    destruct Hin as [[[[Hin|Hin]|Hin]|Hin]|Hin].
    - exfalso. exact (histogramHints_type _ _ Hin Ht).
    - exfalso. exact (rateHints_type _ _ _ _ Hrate Hin Ht).
    - exfalso. exact (ruleHints_type _ _ _ _ Hrules Hin Ht).
    - exact Hin.
    - exfalso. exact (intervalHints_type _ _ _ _ _ Hsafe Hin Ht). }
  split; [split|split].
  - intros (h & Hin & Ht).
    pose proof (Hsum h Hin Ht) as Hs. apply sumHints_In in Hs.
    exact (proj2 Hs).
  - intros Hcond. exists (addSumHint H (queryOf pq)).
    split; [|reflexivity].
    rewrite !in_app_iff. left. right.
    apply sumHints_In. split; [reflexivity | exact Hcond].
  - intros h Hin Ht.
    pose proof (Hsum h Hin Ht) as Hs. apply sumHints_In in Hs.
    destruct Hs as [-> _]. reflexivity.
  - apply getQueryHints_returns.
Qed.
End WithHost.

Example bare_metric_many_series :
  getQueryHints bareHost
    (mkPromQuery (Some (lit "  node_load1 ")) None None) manySeries None None
  = Some [addSumHint bareHost (lit "  node_load1 ")].
Proof. vm_compute. reflexivity. Qed.

Example bare_metric_few_series :
  getQueryHints bareHost
    (mkPromQuery (Some (lit "node_load1")) None None) fewSeries None None
  = Some [].
Proof. vm_compute. reflexivity. Qed.

Example aggregated_query_many_series :
  getQueryHints bareHost
    (mkPromQuery (Some (lit "sum(node_load1)")) None None) manySeries None None
  = Some [].
Proof. vm_compute. reflexivity. Qed.

Example counter_many_series :
  option_map (map (hint_type bareHost))
    (getQueryHints bareHost
       (mkPromQuery (Some (lit "http_requests_total")) None None) manySeries
       None None)
  = Some [lit "APPLY_RATE"; lit "ADD_SUM"].
Proof. vm_compute. reflexivity. Qed.

Lemma getQueryHints_ADD_SUM_witness :
  getQueryHints bareHost
    (mkPromQuery (Some (lit "  node_load1 ")) None None) manySeries None None
  = Some [addSumHint bareHost (lit "  node_load1 ")]
  /\ ((exists h, In h [addSumHint bareHost (lit "  node_load1 ")]
                 /\ hint_type bareHost h = lit "ADD_SUM")
      <-> exists l, manySeries = Some l
                    /\ (20 <= List.length l)%nat
                    /\ matchesBareMetric
                         (trim (queryOf (mkPromQuery (Some (lit "  node_load1 "))
                                           None None))) = true).
Proof.
  split; [vm_compute; reflexivity|].
  apply (getQueryHints_ADD_SUM bareHost
           (mkPromQuery (Some (lit "  node_load1 ")) None None)
           manySeries None None).
  vm_compute. reflexivity.
Defined.

End QueryHintsFacts.

(** ** Query hints: the other blocks *)
Module QueryHintsMore.
Import QueryHints.

(** *** Strings *)

Lemma startsWith_iff (p s : jsstring) :
  startsWith p s = true <-> exists t, s = p ++ t.
Proof.
  revert s. induction p as [|a p IH]; intros s; simpl.
  - split; [intros _; exists s; reflexivity | reflexivity].
  - destruct s as [|b s].
    + split; [discriminate | intros [t Ht]; discriminate].
    + rewrite andb_true_iff, N.eqb_eq, IH. split.
      * intros [-> [t ->]]. exists t. reflexivity.
      * intros [t Ht]. injection Ht as -> ->. split; [reflexivity|].
        exists t. reflexivity.
Qed.

Lemma endsWith_iff (p s : jsstring) :
  endsWith p s = true <-> exists t, s = t ++ p.
Proof.
  unfold endsWith. rewrite startsWith_iff. split.
  - intros [t Ht]. exists (rev t).
    rewrite <- (rev_involutive s), Ht, rev_app_distr, rev_involutive.
    reflexivity.
  - intros [t ->]. exists (rev t). apply rev_app_distr.
Qed.

(** [indexOf] finds nothing iff the needle is no substring. *)
Lemma indexOfFrom_cases (needle : jsstring) :
  forall s i, 0 <= i ->
    (indexOfFrom needle s i = -1
     /\ ~ exists pre post, s = pre ++ needle ++ post)
    \/ (i <= indexOfFrom needle s i
        /\ exists pre post, s = pre ++ needle ++ post).
Proof.
  induction s as [|c s IH]; intros i Hi; cbn [indexOfFrom].
  - destruct (startsWith needle []) eqn:E.
    + right. split; [lia|]. apply startsWith_iff in E. destruct E as [t Ht].
      exists [], t. exact Ht.
    + left. split; [reflexivity|]. intros (pre & post & Hs).
      destruct pre; [|discriminate]. simpl in Hs.
      assert (startsWith needle [] = true)
        by (apply startsWith_iff; exists post; exact Hs).
      congruence.
  - destruct (startsWith needle (c :: s)) eqn:E.
    + right. split; [lia|]. apply startsWith_iff in E. destruct E as [t Ht].
      exists [], t. exact Ht.
    + destruct (IH (i + 1) ltac:(lia)) as [[H1 H2]|[H1 (pre & post & ->)]].
      * left. split; [exact H1|]. intros (pre & post & Hs).
        destruct pre as [|c' pre].
        -- assert (startsWith needle (c :: s) = true)
             by (apply startsWith_iff; exists post; exact Hs).
           congruence.
        -- injection Hs as -> ->. apply H2. exists pre, post. reflexivity.
      * right. split; [lia|]. exists (c :: pre), post. reflexivity.
Qed.

Lemma indexOf_none (s needle : jsstring) :
  (indexOf s needle =? -1) = true
  <-> ~ exists pre post, s = pre ++ needle ++ post.
Proof.
  unfold indexOf. rewrite Z.eqb_eq.
  destruct (indexOfFrom_cases needle s 0 ltac:(lia)) as [[H1 H2]|[H1 H2]].
  - split; auto.
  - split; [lia | contradiction].
Qed.

Lemma includes_iff (s needle : jsstring) :
  includes s needle = true <-> exists pre post, s = pre ++ needle ++ post.
Proof.
  unfold includes, indexOf. rewrite negb_true_iff, Z.eqb_neq.
  destruct (indexOfFrom_cases needle s 0 ltac:(lia)) as [[H1 H2]|[H1 H2]].
  - split; [congruence | contradiction].
  - split; [intros _; exact H2 | lia].
Qed.

Lemma matchesBucket_iff (s : jsstring) :
  matchesBucket s = true
  <-> exists p, p <> [] /\ forallb is_word p = true /\ s = p ++ lit "_bucket".
Proof.
  unfold matchesBucket. rewrite !andb_true_iff, endsWith_iff, Nat.ltb_lt.
  split.
  - intros [[Hw [t ->]] Hl]. exists t.
    rewrite forallb_app, andb_true_iff in Hw. rewrite length_app in Hl.
    split; [|split; [tauto | reflexivity]].
    intros ->. simpl in Hl. lia.
  - intros (p0 & Hne & Hw & ->). split; [split|].
    + rewrite forallb_app, Hw. reflexivity.
    + exists p0. reflexivity.
    + rewrite length_app. destruct p0; [congruence | simpl; lia].
Qed.

Lemma matchesBucket_bare (s : jsstring) :
  matchesBucket s = true -> matchesBareMetric s = true.
Proof.
  unfold matchesBucket, matchesBareMetric.
  rewrite !andb_true_iff, Nat.ltb_lt. intros [[Hw _] Hl].
  destruct s; [simpl in Hl; lia | exact Hw].
Qed.

(** A counter name found in the query is not empty. *)
Lemma matchCounterName_nonempty (s name : jsstring) :
  matchCounterName s = Some name -> name <> [].
Proof.
  unfold matchCounterName. intros Hf. apply find_some in Hf.
  destruct Hf as [_ Hs]. unfold hasCounterSuffix in Hs.
  apply existsb_exists in Hs. destruct Hs as (suf & _ & Hs).
  apply andb_true_iff in Hs. destruct Hs as [_ Hl].
  apply Nat.ltb_lt in Hl. intros ->. simpl in Hl. lia.
Qed.

Section WithHost.
Variable H : Host.

(** *** The blocks, one by one *)

(** The result is the concatenation of the five blocks, none of which
    threw. *)
Lemma getQueryHints_blocks (pq : PromQuery) series ds tr
  (hints : list (QueryHint H)) :
  getQueryHints H pq series ds tr = Some hints <->
  exists rate rules safe,
    rateHints H (queryOf pq) ds = Some rate
    /\ ruleHints H (queryOf pq) ds = Some rules
    /\ intervalHints H pq ds tr = Some safe
    /\ hints = histogramHints H (queryOf pq) ++ rate ++ rules
               ++ sumHints H (queryOf pq) series ++ safe.
Proof.
  unfold getQueryHints.
  destruct (rateHints H (queryOf pq) ds) as [rate|].
  - destruct (ruleHints H (queryOf pq) ds) as [rules|].
    + destruct (intervalHints H pq ds tr) as [safe|].
      * rewrite <- !app_assoc. split.
        -- intros [= <-]. exists rate, rules, safe. auto.
        -- intros (r1 & r2 & r3 & [= <-] & [= <-] & [= <-] & ->). reflexivity.
      * split; [discriminate | intros (? & ? & ? & _ & _ & Hx & _); discriminate].
    + split; [discriminate | intros (? & ? & ? & _ & Hx & _); discriminate].
  - split; [discriminate | intros (? & ? & ? & Hx & _); discriminate].
Qed.

Lemma histogramHints_cases (query : jsstring) :
  histogramHints H query
  = optional (matchesBucket (trim query)) (histogramHint H query).
Proof. reflexivity. Qed.

Lemma sumHints_cases (query : jsstring) series :
  exists b, sumHints H query series = optional b (addSumHint H query)
            /\ (b = true <->
                exists l, series = Some l /\ (20 <= List.length l)%nat
                          /\ matchesBareMetric (trim query) = true).
Proof.
  unfold sumHints. destruct series as [l|].
  - destruct (Nat.leb_spec SUM_HINT_THRESHOLD_COUNT (List.length l)) as [Hl|Hl].
    + destruct (matchesBareMetric (trim query)) eqn:Hm.
      * exists true. split; [reflexivity|]. split; [|reflexivity].
        intros _. exists l. auto.
      * exists false. split; [reflexivity|].
        split; [discriminate | intros (l' & _ & _ & Hf); discriminate].
    + exists false. split; [reflexivity|].
      split; [discriminate|]. intros (l' & [= <-] & Hl' & _).
      unfold SUM_HINT_THRESHOLD_COUNT in Hl. lia.
  - exists false. split; [reflexivity|].
    split; [discriminate | intros (l' & Hs & _); discriminate].
Qed.

Lemma rateHints_shape (query : jsstring) ds (l : list (QueryHint H)) :
  rateHints H query ds = Some l ->
  l = [] \/ exists h, l = [h] /\ hint_type H h = lit "APPLY_RATE".
Proof.
  unfold rateHints.
  destruct ((indexOf query (lit "rate(") =? -1)
            && (indexOf query (lit "increase(") =? -1));
    [|intros [= <-]; left; reflexivity].
  match goal with
  | |- match ?c with _ => _ end = _ -> _ => destruct c as [[name certain]|]
  end; [|discriminate].
  destruct name as [|c name]; [intros [= <-]; left; reflexivity|].
  intros [= <-]. right. eexists. split; [reflexivity|].
  destruct (matchesBareMetric (trim query)); reflexivity.
Qed.

Lemma ruleHints_shape (query : jsstring) ds (l : list (QueryHint H)) :
  ruleHints H query ds = Some l ->
  l = [] \/ exists h, l = [h] /\ hint_type H h = lit "EXPAND_RULES".
Proof.
  unfold ruleHints.
  destruct ds as [ds|]; [|intros [= <-]; left; reflexivity].
  destruct (ruleMappings H ds) as [mapping|];
    [|intros [= <-]; left; reflexivity].
  destruct (mappingForQuery H query mapping) as [[|m found]|];
    [intros [= <-]; left; reflexivity | | discriminate].
  intros [= <-]. right. eexists. split; reflexivity.
Qed.

Lemma intervalHints_shape (pq : PromQuery) ds tr (l : list (QueryHint H)) :
  intervalHints H pq ds tr = Some l ->
  l = [] \/ exists h, l = [h] /\ hint_type H h = lit "SAFE_INTERVAL"
                      /\ hint_fix H h = None.
Proof.
  unfold intervalHints.
  destruct tr as [tr|]; [|intros [= <-]; left; reflexivity].
  destruct (intervalToSeconds H _) as [seconds|]; [|discriminate].
  destruct ds as [ds|]; [|intros [= <-]; left; reflexivity].
  match goal with
  | |- (if ?c then _ else _) = _ -> _ => destruct c
  end; [|intros [= <-]; left; reflexivity].
  intros [= <-]. right. eexists. split; [reflexivity|]. split; reflexivity.
Qed.

Lemma histogramHints_In (query : jsstring) (h : QueryHint H) :
  In h (histogramHints H query)
  <-> h = histogramHint H query /\ matchesBucket (trim query) = true.
Proof.
  rewrite histogramHints_cases. destruct (matchesBucket (trim query)); simpl.
  - split; [intros [<-|[]]; auto | intros [-> _]; auto].
  - split; [intros [] | intros [_ Hf]; discriminate].
Qed.

Lemma rateHints_In (query : jsstring) ds l (h : QueryHint H) :
  rateHints H query ds = Some l -> In h l -> hint_type H h = lit "APPLY_RATE".
Proof.
  intros Hr Hin.
  destruct (rateHints_shape _ _ _ Hr) as [->|(h0 & -> & Ht)];
    [destruct Hin | destruct Hin as [<-|[]]; exact Ht].
Qed.

Lemma ruleHints_In (query : jsstring) ds l (h : QueryHint H) :
  ruleHints H query ds = Some l -> In h l ->
  hint_type H h = lit "EXPAND_RULES".
Proof.
  intros Hr Hin.
  destruct (ruleHints_shape _ _ _ Hr) as [->|(h0 & -> & Ht)];
    [destruct Hin | destruct Hin as [<-|[]]; exact Ht].
Qed.

Lemma intervalHints_In (pq : PromQuery) ds tr l (h : QueryHint H) :
  intervalHints H pq ds tr = Some l -> In h l ->
  hint_type H h = lit "SAFE_INTERVAL".
Proof.
  intros Hr Hin.
  destruct (intervalHints_shape _ _ _ _ Hr) as [->|(h0 & -> & Ht & _)];
    [destruct Hin | destruct Hin as [<-|[]]; exact Ht].
Qed.

Lemma sumHints_type (query : jsstring) series (h : QueryHint H) :
  In h (sumHints H query series) -> hint_type H h = lit "ADD_SUM".
Proof.
  destruct (sumHints_cases query series) as (b & -> & _).
  destruct b; simpl; [intros [<-|[]]; reflexivity | intros []].
Qed.

End WithHost.

(** Telling the five types apart. *)
Ltac types_differ :=
  match goal with
  | E1 : hint_type _ ?h = lit _, E2 : hint_type _ ?h = lit _ |- _ =>
      rewrite E1 in E2; vm_compute in E2; discriminate
  | E : hint_type _ (histogramHint _ _) = lit _ |- _ =>
      vm_compute in E; discriminate
  end.

Section Blocks.
Variable H : Host.

(** X1.  Whenever [getQueryHints] returns, its result contains a hint of
    type [HISTOGRAM_QUANTILE] iff the trimmed query is a non-empty run of
    word characters followed by [_bucket]; the hint's fix is the action
    [ADD_HISTOGRAM_QUANTILE] on the query as given, untrimmed. *)
Theorem histogram_hint_iff_bucket (pq : PromQuery) series ds tr
  (hints : list (QueryHint H))
  (Hret : getQueryHints H pq series ds tr = Some hints) :
  ((exists h, In h hints /\ hint_type H h = lit "HISTOGRAM_QUANTILE")
   <-> exists p, p <> [] /\ forallb is_word p = true
                 /\ trim (queryOf pq) = p ++ lit "_bucket")
  /\ (forall h, In h hints -> hint_type H h = lit "HISTOGRAM_QUANTILE" ->
        hint_fix H h
        = Some (mkFix H (lit "Fix by adding histogram_quantile().")
                  (mkAction H (lit "ADD_HISTOGRAM_QUANTILE")
                     (Some (queryOf pq)) None None))).
Proof.
  apply getQueryHints_blocks in Hret.
  destruct Hret as (rate & rules & safe & Hrate & Hrules & Hsafe & ->).
  assert (Hhist : forall h,
             In h (histogramHints H (queryOf pq) ++ rate ++ rules
                   ++ sumHints H (queryOf pq) series ++ safe) ->
             hint_type H h = lit "HISTOGRAM_QUANTILE" ->
             h = histogramHint H (queryOf pq)
             /\ matchesBucket (trim (queryOf pq)) = true).
  { intros h Hin Ht. rewrite !in_app_iff in Hin.
    destruct Hin as [Hin|[Hin|[Hin|[Hin|Hin]]]].
    - apply histogramHints_In. exact Hin.
    - pose proof (rateHints_In _ _ _ _ _ Hrate Hin). types_differ.
    - pose proof (ruleHints_In _ _ _ _ _ Hrules Hin). types_differ.
    - pose proof (sumHints_type _ _ _ _ Hin). types_differ.
    - pose proof (intervalHints_In _ _ _ _ _ _ Hsafe Hin). types_differ. }
  split; [split|].
  - intros (h & Hin & Ht). apply matchesBucket_iff.
    exact (proj2 (Hhist h Hin Ht)).
  - intros Hp. apply matchesBucket_iff in Hp.
    exists (histogramHint H (queryOf pq)). split; [|reflexivity].
    apply in_app_iff. left. apply histogramHints_In. auto.
  - intros h Hin Ht. destruct (Hhist h Hin Ht) as [-> _]. reflexivity.
Qed.

(** X9.  A histogram series is a bare metric name too: whenever the result
    has the [HISTOGRAM_QUANTILE] hint and at least 20 series were supplied,
    it has the [ADD_SUM] hint as well, after it. *)
Theorem histogram_hint_brings_sum_hint (pq : PromQuery)
  (l : list (SeriesValue H)) ds tr (hints : list (QueryHint H))
  (Hret : getQueryHints H pq (Some l) ds tr = Some hints)
  (Hmany : (20 <= List.length l)%nat)
  (Hhist : exists h, In h hints /\ hint_type H h = lit "HISTOGRAM_QUANTILE") :
  exists before between after,
    hints = before ++ histogramHint H (queryOf pq) :: between
            ++ addSumHint H (queryOf pq) :: after.
Proof.
  apply getQueryHints_blocks in Hret.
  destruct Hret as (rate & rules & safe & Hrate & Hrules & Hsafe & ->).
  assert (Hb : matchesBucket (trim (queryOf pq)) = true).
  { destruct Hhist as (h & Hin & Ht). rewrite !in_app_iff in Hin.
    destruct Hin as [Hin|[Hin|[Hin|[Hin|Hin]]]].
    - apply histogramHints_In in Hin. tauto.
    - pose proof (rateHints_In _ _ _ _ _ Hrate Hin). types_differ.
    - pose proof (ruleHints_In _ _ _ _ _ Hrules Hin). types_differ.
    - pose proof (sumHints_type _ _ _ _ Hin). types_differ.
    - pose proof (intervalHints_In _ _ _ _ _ _ Hsafe Hin). types_differ. }
  rewrite histogramHints_cases, Hb. unfold sumHints.
  destruct (Nat.leb_spec SUM_HINT_THRESHOLD_COUNT (List.length l)) as [_|Hl];
    [|unfold SUM_HINT_THRESHOLD_COUNT in Hl; lia].
  rewrite (matchesBucket_bare _ Hb).
  exists [], (rate ++ rules), safe. simpl. rewrite <- app_assoc. reflexivity.
Qed.

Lemma hints_by_type (pq : PromQuery) series ds tr rate rules safe
  (h : QueryHint H) :
  rateHints H (queryOf pq) ds = Some rate ->
  ruleHints H (queryOf pq) ds = Some rules ->
  intervalHints H pq ds tr = Some safe ->
  In h (histogramHints H (queryOf pq) ++ rate ++ rules
        ++ sumHints H (queryOf pq) series ++ safe) ->
  (hint_type H h = lit "HISTOGRAM_QUANTILE"
   /\ In h (histogramHints H (queryOf pq)))
  \/ (hint_type H h = lit "APPLY_RATE" /\ In h rate)
  \/ (hint_type H h = lit "EXPAND_RULES" /\ In h rules)
  \/ (hint_type H h = lit "ADD_SUM" /\ In h (sumHints H (queryOf pq) series))
  \/ (hint_type H h = lit "SAFE_INTERVAL" /\ In h safe).
Proof.
  intros Hrate Hrules Hsafe Hin. rewrite !in_app_iff in Hin.
  destruct Hin as [Hin|[Hin|[Hin|[Hin|Hin]]]].
  - left. split; [|exact Hin]. apply histogramHints_In in Hin.
    destruct Hin as [-> _]. reflexivity.
  - right. left. split; [eapply rateHints_In; eauto | exact Hin].
  - right. right. left. split; [eapply ruleHints_In; eauto | exact Hin].
  - right. right. right. left. split; [eapply sumHints_type; eauto | exact Hin].
  - right. right. right. right.
    split; [eapply intervalHints_In; eauto | exact Hin].
Qed.

(** X2.  The result holds at most one hint of each type, in the order
    [HISTOGRAM_QUANTILE], [APPLY_RATE], [EXPAND_RULES], [ADD_SUM],
    [SAFE_INTERVAL]: at most five hints, with no type twice. *)
Theorem hints_come_in_fixed_order (pq : PromQuery) series ds tr
  (hints : list (QueryHint H))
  (Hret : getQueryHints H pq series ds tr = Some hints) :
  (exists b1 b2 b3 b4 b5,
      map (hint_type H) hints
      = optional b1 (lit "HISTOGRAM_QUANTILE") ++ optional b2 (lit "APPLY_RATE")
        ++ optional b3 (lit "EXPAND_RULES") ++ optional b4 (lit "ADD_SUM")
        ++ optional b5 (lit "SAFE_INTERVAL"))
  /\ (List.length hints <= 5)%nat
  /\ NoDup (map (hint_type H) hints).
Proof.
  apply getQueryHints_blocks in Hret.
  destruct Hret as (rate & rules & safe & Hrate & Hrules & Hsafe & ->).
  assert (Hform : exists b1 b2 b3 b4 b5,
    map (hint_type H)
      (histogramHints H (queryOf pq) ++ rate ++ rules
       ++ sumHints H (queryOf pq) series ++ safe)
    = optional b1 (lit "HISTOGRAM_QUANTILE") ++ optional b2 (lit "APPLY_RATE")
      ++ optional b3 (lit "EXPAND_RULES") ++ optional b4 (lit "ADD_SUM")
      ++ optional b5 (lit "SAFE_INTERVAL")).
  { rewrite !map_app, histogramHints_cases.
    destruct (sumHints_cases H (queryOf pq) series) as (b4 & -> & _).
    exists (matchesBucket (trim (queryOf pq))).
    destruct (rateHints_shape _ _ _ _ Hrate) as [->|(h2 & -> & T2)];
      [exists false | exists true];
      (destruct (ruleHints_shape _ _ _ _ Hrules) as [->|(h3 & -> & T3)];
       [exists false | exists true]);
      exists b4;
      (destruct (intervalHints_shape _ _ _ _ _ Hsafe)
         as [->|(h5 & -> & T5 & _)];
       [exists false | exists true]);
      destruct (matchesBucket (trim (queryOf pq))), b4; simpl;
      rewrite ?T2, ?T3, ?T5; reflexivity. }
  split; [exact Hform|].
  destruct Hform as (b1 & b2 & b3 & b4 & b5 & Hform).
  split.
  - rewrite <- (length_map (hint_type H)), Hform.
    destruct b1, b2, b3, b4, b5; simpl; lia.
  - rewrite Hform.
    destruct b1, b2, b3, b4, b5; vm_compute;
      repeat (constructor; [simpl; intuition discriminate|]); constructor.
Qed.

(** X3.  A query that contains [rate(] or [increase(] gets no [APPLY_RATE]
    hint, whatever the metric metadata: the block pushes nothing and does
    not read the metadata. *)
Theorem rate_query_gets_no_rate_hint (pq : PromQuery) series ds tr
  (pre post : jsstring)
  (Hq : queryOf pq = pre ++ lit "rate(" ++ post
        \/ queryOf pq = pre ++ lit "increase(" ++ post) :
  rateHints H (queryOf pq) ds = Some []
  /\ forall hints, getQueryHints H pq series ds tr = Some hints ->
                   ~ exists h, In h hints /\ hint_type H h = lit "APPLY_RATE".
Proof.
  assert (Hr : rateHints H (queryOf pq) ds = Some []).
  { unfold rateHints.
    destruct (indexOf (queryOf pq) (lit "rate(") =? -1) eqn:E1.
    - destruct (indexOf (queryOf pq) (lit "increase(") =? -1) eqn:E2;
        [|reflexivity].
      exfalso. apply indexOf_none in E1. apply indexOf_none in E2.
      destruct Hq as [Hq|Hq]; [apply E1 | apply E2]; exists pre, post; exact Hq.
    - reflexivity. }
  split; [exact Hr|].
  intros hints Hret (h & Hin & Ht).
  apply getQueryHints_blocks in Hret.
  destruct Hret as (rate & rules & safe & Hrate & Hrules & Hsafe & ->).
  rewrite Hr in Hrate. injection Hrate as <-.
  destruct (hints_by_type _ _ _ _ _ _ _ _ Hr Hrules Hsafe Hin)
    as [[T _]|[[_ []]|[[T _]|[[T _]|[T _]]]]]; types_differ.
Qed.

(** *** The [rate()] block *)

Lemma rateHints_eq (query : jsstring) ds :
  rateHints H query ds
  = if (indexOf query (lit "rate(") =? -1)
       && (indexOf query (lit "increase(") =? -1)
    then
      if (0 <? List.length (map fst (metadataOf H ds)))%nat
      then match findCounter H query (metadataOf H ds)
                   (map fst (metadataOf H ds)) with
           | None => None
           | Some (Some (c :: name)) => Some [rateHint H true (c :: name) query]
           | Some _ => Some []
           end
      else match matchCounterName query with
           | Some (c :: name) => Some [rateHint H false (c :: name) query]
           | _ => Some []
           end
    else Some [].
Proof.
  unfold rateHints, metadataOf, rateHint.
  destruct ((indexOf query (lit "rate(") =? -1)
            && (indexOf query (lit "increase(") =? -1)); [|reflexivity].
  match goal with
  | |- context [(0 <? ?n)%nat] => destruct (0 <? n)%nat
  end.
  - match goal with
    | |- context [findCounter H query ?m ?k] =>
        destruct (findCounter H query m k) as [[[|c name]|]|]
    end; reflexivity.
  - destruct (matchCounterName query) as [[|c name]|]; reflexivity.
Qed.

Lemma findCounter_found (query : jsstring) md (name : jsstring) :
  forall keys,
    findCounter H query md keys = Some (Some name) ->
    In name keys
    /\ exists item rest,
        lookup name md = Some (item :: rest)
        /\ jsstring_eqb (toLowerCase H (md_type item)) (lit "counter") = true
        /\ regexpFound H (lit "\b" ++ name ++ lit "\b") query = Some true.
Proof.
  induction keys as [|k keys IH]; cbn [findCounter In]; [discriminate|].
  destruct (lookup k md) as [[|item rest]|] eqn:El; try discriminate.
  destruct (jsstring_eqb (toLowerCase H (md_type item)) (lit "counter")) eqn:Et.
  - destruct (regexpFound H (lit "\b" ++ k ++ lit "\b") query) as [[|]|] eqn:Er;
      try discriminate.
    + intros Heq. injection Heq as Heq. subst k.
      split; [left; reflexivity|]. exists item, rest. auto.
    + intros Hf. destruct (IH Hf) as [Hin Hx]. split; [right; exact Hin | exact Hx].
  - intros Hf. destruct (IH Hf) as [Hin Hx]. split; [right; exact Hin | exact Hx].
Qed.

(** Every [APPLY_RATE] hint of the result comes from the [rate()] block. *)
Lemma rate_hint_from_block (pq : PromQuery) series ds tr
  (hints : list (QueryHint H)) (h : QueryHint H) :
  getQueryHints H pq series ds tr = Some hints ->
  (In h hints /\ hint_type H h = lit "APPLY_RATE")
  <-> exists rate, rateHints H (queryOf pq) ds = Some rate /\ In h rate.
Proof.
  intros Hret. apply getQueryHints_blocks in Hret.
  destruct Hret as (rate & rules & safe & Hrate & Hrules & Hsafe & ->).
  split.
  - intros [Hin Ht]. exists rate. split; [exact Hrate|].
    destruct (hints_by_type _ _ _ _ _ _ _ _ Hrate Hrules Hsafe Hin)
      as [[T _]|[[_ Hr]|[[T _]|[[T _]|[T _]]]]];
      try types_differ. exact Hr.
  - intros (rate' & Hr' & Hin). rewrite Hrate in Hr'. injection Hr' as <-.
    split; [|eapply rateHints_In; eauto].
    rewrite !in_app_iff. right. left. exact Hin.
Qed.

(** X4.  Without a data source the [APPLY_RATE] hint goes by the name
    alone: it is given iff the query contains neither [rate(] nor
    [increase(] and has a word ending in [_total], [_sum] or [_count]; it
    names the first such word as looking like a counter, and offers the
    [ADD_RATE] fix iff the trimmed query is a bare metric name. *)
Theorem rate_hint_without_datasource (pq : PromQuery) series tr
  (hints : list (QueryHint H))
  (Hret : getQueryHints H pq series None tr = Some hints) :
  ((exists h, In h hints /\ hint_type H h = lit "APPLY_RATE")
   <-> (~ exists pre post, queryOf pq = pre ++ lit "rate(" ++ post)
       /\ (~ exists pre post, queryOf pq = pre ++ lit "increase(" ++ post)
       /\ exists name, matchCounterName (queryOf pq) = Some name)
  /\ (forall h, In h hints -> hint_type H h = lit "APPLY_RATE" ->
        exists name, matchCounterName (queryOf pq) = Some name
                     /\ h = rateHint H false name (queryOf pq))
  /\ (forall name,
        hint_fix H (rateHint H false name (queryOf pq)) <> None
        <-> matchesBareMetric (trim (queryOf pq)) = true).
Proof.
  pose proof (rateHints_eq (queryOf pq) None) as Heq. simpl in Heq.
  assert (Hblock : forall h,
    (In h hints /\ hint_type H h = lit "APPLY_RATE")
    <-> ((indexOf (queryOf pq) (lit "rate(") =? -1) = true
         /\ (indexOf (queryOf pq) (lit "increase(") =? -1) = true
         /\ exists name, matchCounterName (queryOf pq) = Some name
                         /\ h = rateHint H false name (queryOf pq))).
  { intros h. rewrite (rate_hint_from_block _ _ _ _ _ h Hret). rewrite Heq.
    destruct (indexOf (queryOf pq) (lit "rate(") =? -1);
      [|split; [intros (r & [= <-] & []) | intros [Hf _]; discriminate]].
    destruct (indexOf (queryOf pq) (lit "increase(") =? -1);
      [|split; [intros (r & [= <-] & []) | intros (_ & Hf & _); discriminate]].
    simpl.
    destruct (matchCounterName (queryOf pq)) as [[|c name]|] eqn:Em.
    - exfalso. exact (matchCounterName_nonempty _ _ Em eq_refl).
    - split.
      + intros (r & [= <-] & [<-|[]]). repeat split. eexists; eauto.
      + intros (_ & _ & name' & [= <-] & ->). eexists. split; [reflexivity|].
        left. reflexivity.
    - split; [intros (r & [= <-] & []) | intros (_ & _ & n & Hn & _); discriminate]. }
  split; [split|split].
  - intros (h & Hin & Ht).
    destruct (proj1 (Hblock h) (conj Hin Ht)) as (H1 & H2 & name & Hn & _).
    apply indexOf_none in H1. apply indexOf_none in H2. eauto.
  - intros (H1 & H2 & name & Hn).
    exists (rateHint H false name (queryOf pq)).
    apply Hblock. rewrite <- indexOf_none in H1, H2. eauto.
  - intros h Hin Ht. destruct (proj1 (Hblock h) (conj Hin Ht))
      as (_ & _ & name & Hn & ->). eauto.
  - intros name. unfold rateHint.
    destruct (matchesBareMetric (trim (queryOf pq))); simpl;
      split; congruence.
Qed.

(** X5.  With metric metadata at hand the name alone does not count: every
    [APPLY_RATE] hint names a metadata key whose first item has the type
    [counter] (in any case) and that is found in the query as a word, and
    says that it is a counter. *)
Theorem rate_hint_with_metadata (pq : PromQuery) series
  (ds : PrometheusDatasource H) tr
  (md : list (jsstring * list PromMetricsMetadataItem))
  (hints : list (QueryHint H))
  (Hmd : metricsMetadata H ds = Some md) (Hne : md <> [])
  (Hret : getQueryHints H pq series (Some ds) tr = Some hints) :
  forall h, In h hints -> hint_type H h = lit "APPLY_RATE" ->
    exists name item rest,
      In name (map fst md)
      /\ lookup name md = Some (item :: rest)
      /\ jsstring_eqb (toLowerCase H (md_type item)) (lit "counter") = true
      /\ regexpFound H (lit "\b" ++ name ++ lit "\b") (queryOf pq) = Some true
      /\ h = rateHint H true name (queryOf pq).
Proof.
  intros h Hin Ht.
  destruct (proj1 (rate_hint_from_block _ _ _ _ _ h Hret) (conj Hin Ht))
    as (rate & Hrate & Hr).
  rewrite rateHints_eq in Hrate. unfold metadataOf in Hrate.
  rewrite Hmd in Hrate.
  destruct ((indexOf (queryOf pq) (lit "rate(") =? -1)
            && (indexOf (queryOf pq) (lit "increase(") =? -1));
    [|injection Hrate as <-; destruct Hr].
  assert (Hpos : (0 <? List.length (map fst md))%nat = true)
    by (destruct md; [congruence | reflexivity]).
  rewrite Hpos in Hrate.
  destruct (findCounter H (queryOf pq) md (map fst md))
    as [[[|c name]|]|] eqn:Ef; try discriminate;
    injection Hrate as <-; try (destruct Hr; fail).
  destruct Hr as [<-|[]].
  destruct (findCounter_found _ _ _ _ Ef) as (Hk & item & rest & Hl & Hc & Hf).
  exists (c :: name), item, rest. auto.
Qed.

(** *** The recording-rules block *)

Lemma mappingForQuery_filter (query : jsstring) :
  forall m found,
    mappingForQuery H query m = Some found ->
    found = filter (ruleFound H query) m
    /\ forall kv, In kv m -> regexpFound H (fst kv) query <> None.
Proof.
  induction m as [|[k v] m IH]; intros found; cbn [mappingForQuery filter].
  - intros [= <-]. split; [reflexivity | intros kv []].
  - unfold ruleFound at 1. cbn [fst].
    destruct (regexpFound H k query) as [b|] eqn:Er; [|discriminate].
    destruct (mappingForQuery H query m) as [acc|]; [|discriminate].
    destruct (IH acc eq_refl) as [-> Hall].
    intros [= <-]. split.
    + destruct b; reflexivity.
    + intros kv [<-|Hin]; [cbn [fst]; congruence | apply Hall; exact Hin].
Qed.

Lemma mappingForQuery_throws (query : jsstring) :
  forall m kv, In kv m -> regexpFound H (fst kv) query = None ->
               mappingForQuery H query m = None.
Proof.
  induction m as [|[k v] m IH]; intros kv Hin Hn; [destruct Hin|].
  cbn [mappingForQuery]. destruct Hin as [<-|Hin].
  - cbn [fst] in Hn. rewrite Hn. reflexivity.
  - destruct (regexpFound H k query); [|reflexivity].
    rewrite (IH kv Hin Hn). reflexivity.
Qed.

Lemma ruleHints_eq (query : jsstring) (d : PrometheusDatasource H) m found :
  ruleMappings H d = Some m ->
  mappingForQuery H query m = Some found ->
  ruleHints H query (Some d)
  = Some (match found with
          | [] => []
          | _ => [expandRulesHint H query found]
          end).
Proof.
  intros Hm Hf. unfold ruleHints. rewrite Hm, Hf.
  destruct found; reflexivity.
Qed.

(** X6.  The [EXPAND_RULES] hint is given iff the data source has rule
    mappings and the name of at least one of them is found in the query;
    the mapping it carries holds exactly the rules found, in the order of
    the data source's mapping. *)
Theorem expand_rules_hint (pq : PromQuery) series ds tr
  (hints : list (QueryHint H))
  (Hret : getQueryHints H pq series ds tr = Some hints) :
  ((exists h, In h hints /\ hint_type H h = lit "EXPAND_RULES")
   <-> exists d m kv,
        ds = Some d /\ ruleMappings H d = Some m
        /\ In kv m /\ regexpFound H (fst kv) (queryOf pq) = Some true)
  /\ (forall h, In h hints -> hint_type H h = lit "EXPAND_RULES" ->
        exists d m,
          ds = Some d /\ ruleMappings H d = Some m
          /\ h = expandRulesHint H (queryOf pq)
                   (filter (ruleFound H (queryOf pq)) m)).
Proof.
  apply getQueryHints_blocks in Hret.
  destruct Hret as (rate & rules & safe & Hrate & Hrules & Hsafe & ->).
  assert (Hblock : forall h,
    (In h (histogramHints H (queryOf pq) ++ rate ++ rules
           ++ sumHints H (queryOf pq) series ++ safe)
     /\ hint_type H h = lit "EXPAND_RULES") <-> In h rules).
  { intros h. split.
    - intros [Hin Ht].
      destruct (hints_by_type _ _ _ _ _ _ _ _ Hrate Hrules Hsafe Hin)
        as [[T _]|[[T _]|[[_ Hr]|[[T _]|[T _]]]]];
        try types_differ. exact Hr.
    - intros Hin. split; [|eapply ruleHints_In; eauto].
      rewrite !in_app_iff. right. right. left. exact Hin. }
  assert (Hrules' : forall h, In h rules <->
    exists d m, ds = Some d /\ ruleMappings H d = Some m
                /\ filter (ruleFound H (queryOf pq)) m <> []
                /\ h = expandRulesHint H (queryOf pq)
                         (filter (ruleFound H (queryOf pq)) m)).
  { intros h. destruct ds as [d|].
    - destruct (ruleMappings H d) as [m|] eqn:Hm.
      + destruct (mappingForQuery H (queryOf pq) m) as [found|] eqn:Hf.
        * rewrite (ruleHints_eq _ _ _ _ Hm Hf) in Hrules.
          destruct (mappingForQuery_filter _ _ _ Hf) as [-> _].
          injection Hrules as <-.
          destruct (filter (ruleFound H (queryOf pq)) m) as [|x xs] eqn:Efl.
          -- split; [intros [] |].
             intros (d' & m' & Hd & Hm' & Hne & _).
             injection Hd as <-. rewrite Hm in Hm'. injection Hm' as <-.
             rewrite Efl in Hne. congruence.
          -- split.
             ++ intros [<-|[]]. exists d, m. rewrite Efl.
                repeat split; congruence.
             ++ intros (d' & m' & Hd & Hm' & _ & ->).
                injection Hd as <-. rewrite Hm in Hm'. injection Hm' as <-.
                rewrite Efl. left. reflexivity.
        * unfold ruleHints in Hrules. rewrite Hm, Hf in Hrules. discriminate.
      + unfold ruleHints in Hrules. rewrite Hm in Hrules.
        injection Hrules as <-.
        split; [intros [] |].
        intros (d' & m' & Hd & Hx & _). injection Hd as <-. congruence.
    - injection Hrules as <-.
      split; [intros [] | intros (d' & m' & Hx & _); discriminate]. }
  split; [split|].
  - intros (h & Hin & Ht).
    pose proof (proj1 (Hblock h) (conj Hin Ht)) as Hr.
    apply Hrules' in Hr. destruct Hr as (d & m & -> & Hm & Hne & _).
    destruct (filter (ruleFound H (queryOf pq)) m) as [|kv xs] eqn:Efl;
      [congruence|].
    assert (Hkv : In kv (filter (ruleFound H (queryOf pq)) m))
      by (rewrite Efl; left; reflexivity).
    apply filter_In in Hkv. destruct Hkv as [Hin' Hfound].
    exists d, m, kv. repeat split; auto.
    unfold ruleFound in Hfound.
    destruct (regexpFound H (fst kv) (queryOf pq)) as [[|]|]; congruence.
  - intros (d & m & kv & -> & Hm & Hin & Hfound).
    exists (expandRulesHint H (queryOf pq)
              (filter (ruleFound H (queryOf pq)) m)).
    apply Hblock. apply Hrules'. exists d, m. repeat split; auto.
    intros Hnil.
    assert (Hkv : In kv (filter (ruleFound H (queryOf pq)) m)).
    { apply filter_In. split; [exact Hin|].
      unfold ruleFound. rewrite Hfound. reflexivity. }
    rewrite Hnil in Hkv. destruct Hkv.
  - intros h Hin Ht.
    pose proof (proj1 (Hblock h) (conj Hin Ht)) as Hr.
    apply Hrules' in Hr. destruct Hr as (d & m & -> & Hm & _ & ->).
    exists d, m. auto.
Qed.

(** *** The safe-interval block *)

Lemma intervalHints_eq (pq : PromQuery) ds tr :
  intervalHints H pq ds tr
  = match tr with
    | None => Some []
    | Some t =>
        match intervalToSeconds H (intervalOf pq) with
        | None => None
        | Some seconds =>
            match ds with
            | None => Some []
            | Some d =>
                Some (optional
                        (num_truthy H (safeIntervalOf H d t)
                         && num_lt H seconds (safeIntervalOf H d t))
                        (mkHint H (lit "SAFE_INTERVAL")
                           (safeIntervalLabel H pq
                              (Some (safeIntervalOf H d t)))
                           None))
            end
        end
    end.
Proof.
  unfold intervalHints, intervalOf, safeIntervalOf, safeIntervalLabel, optional.
  destruct tr as [t|]; [|reflexivity].
  destruct (intervalToSeconds H _) as [seconds|]; [|reflexivity].
  destruct ds as [d|]; [|reflexivity].
  match goal with
  | |- (if ?c then _ else _) = _ => destruct c
  end; reflexivity.
Qed.

(** X7.  The [SAFE_INTERVAL] hint needs both a time range and a data
    source: it is given iff the query's step interval ([15s] when unset) is
    below the data source's safe interval for the range and that interval
    is truthy.  The hint has no fix, and under step mode [exact] its label
    quotes the safe interval. *)
Theorem safe_interval_hint (pq : PromQuery) series ds tr
  (hints : list (QueryHint H))
  (Hret : getQueryHints H pq series ds tr = Some hints) :
  ((exists h, In h hints /\ hint_type H h = lit "SAFE_INTERVAL")
   <-> exists d t seconds,
        ds = Some d /\ tr = Some t
        /\ intervalToSeconds H (intervalOf pq) = Some seconds
        /\ num_truthy H (safeIntervalOf H d t) = true
        /\ num_lt H seconds (safeIntervalOf H d t) = true)
  /\ (forall h, In h hints -> hint_type H h = lit "SAFE_INTERVAL" ->
        hint_fix H h = None
        /\ exists d t,
            ds = Some d /\ tr = Some t
            /\ hint_label H h
               = safeIntervalLabel H pq (Some (safeIntervalOf H d t))).
Proof.
  apply getQueryHints_blocks in Hret.
  destruct Hret as (rate & rules & safe & Hrate & Hrules & Hsafe & ->).
  assert (Hblock : forall h,
    (In h (histogramHints H (queryOf pq) ++ rate ++ rules
           ++ sumHints H (queryOf pq) series ++ safe)
     /\ hint_type H h = lit "SAFE_INTERVAL") <-> In h safe).
  { intros h. split.
    - intros [Hin Ht].
      destruct (hints_by_type _ _ _ _ _ _ _ _ Hrate Hrules Hsafe Hin)
        as [[T _]|[[T _]|[[T _]|[[T _]|[_ Hr]]]]];
        try types_differ. exact Hr.
    - intros Hin. split; [|eapply intervalHints_In; eauto].
      rewrite !in_app_iff. right. right. right. right. exact Hin. }
  rewrite intervalHints_eq in Hsafe.
  assert (Hsafe' : forall h, In h safe <->
    exists d t seconds,
      ds = Some d /\ tr = Some t
      /\ intervalToSeconds H (intervalOf pq) = Some seconds
      /\ num_truthy H (safeIntervalOf H d t)
         && num_lt H seconds (safeIntervalOf H d t) = true
      /\ h = mkHint H (lit "SAFE_INTERVAL")
               (safeIntervalLabel H pq (Some (safeIntervalOf H d t))) None).
  { intros h. destruct tr as [t|].
    - destruct (intervalToSeconds H (intervalOf pq)) as [seconds|];
        [|discriminate].
      destruct ds as [d|].
      + injection Hsafe as <-.
        destruct (num_truthy H (safeIntervalOf H d t)
                  && num_lt H seconds (safeIntervalOf H d t)) eqn:Ec; simpl.
        * split.
          -- intros [<-|[]]. exists d, t, seconds. auto.
          -- intros (d' & t' & s' & Hd & Ht' & _ & _ & ->).
             injection Hd as <-. injection Ht' as <-. left. reflexivity.
        * split; [intros []|].
          intros (d' & t' & s' & Hd & Ht' & Hs' & Hc & _).
          injection Hd as <-. injection Ht' as <-. injection Hs' as <-.
          congruence.
      + injection Hsafe as <-.
        split; [intros [] | intros (d' & t' & s' & Hx & _); discriminate].
    - injection Hsafe as <-.
      split; [intros [] | intros (d' & t' & s' & _ & Hx & _); discriminate]. }
  split; [split|].
  - intros (h & Hin & Ht).
    pose proof (proj1 (Hblock h) (conj Hin Ht)) as Hs.
    apply Hsafe' in Hs.
    destruct Hs as (d & t & seconds & -> & -> & Hi & Hc & _).
    apply andb_true_iff in Hc. exists d, t, seconds. tauto.
  - intros (d & t & seconds & -> & -> & Hi & Hc1 & Hc2).
    eexists. apply Hblock. apply Hsafe'. exists d, t, seconds.
    rewrite Hc1, Hc2. repeat split; auto.
  - intros h Hin Ht.
    pose proof (proj1 (Hblock h) (conj Hin Ht)) as Hs.
    apply Hsafe' in Hs.
    destruct Hs as (d & t & seconds & -> & -> & _ & _ & ->).
    split; [reflexivity|]. exists d, t. auto.
Qed.

(** *** Exceptions *)

(** X8.  Exceptions escape [getQueryHints]: a malformed step interval when
    a time range is given, even without a data source; a recording-rule
    name that is no regular expression; and, for a query without [rate(]
    and [increase(], a first metadata key without any metadata item. *)
Theorem exceptions_escape (pq : PromQuery) series ds tr :
  (forall t, tr = Some t -> intervalToSeconds H (intervalOf pq) = None ->
             getQueryHints H pq series ds tr = None)
  /\ (forall d m kv,
        ds = Some d -> ruleMappings H d = Some m -> In kv m ->
        regexpFound H (fst kv) (queryOf pq) = None ->
        getQueryHints H pq series ds tr = None)
  /\ (forall d k md,
        ds = Some d -> metricsMetadata H d = Some ((k, []) :: md) ->
        (~ exists pre post, queryOf pq = pre ++ lit "rate(" ++ post) ->
        (~ exists pre post, queryOf pq = pre ++ lit "increase(" ++ post) ->
        getQueryHints H pq series ds tr = None).
Proof.
  split; [|split].
  - intros t -> Hi. unfold getQueryHints.
    rewrite intervalHints_eq, Hi.
    destruct (rateHints H (queryOf pq) ds); [|reflexivity].
    destruct (ruleHints H (queryOf pq) ds); reflexivity.
  - intros d m kv -> Hm Hin Hn. unfold getQueryHints.
    destruct (rateHints H (queryOf pq) (Some d)); [|reflexivity].
    unfold ruleHints. rewrite Hm.
    rewrite (mappingForQuery_throws _ _ _ Hin Hn). reflexivity.
  - intros d k md -> Hm H1 H2. unfold getQueryHints.
    rewrite rateHints_eq. unfold metadataOf. rewrite Hm.
    apply indexOf_none in H1. apply indexOf_none in H2.
    rewrite H1, H2. cbn [andb map List.length Nat.ltb Nat.leb fst].
    cbn [findCounter lookup]. unfold jsstring_eqb at 1.
    destruct (list_eq_dec N.eq_dec k k); [reflexivity | congruence].
Qed.


End Blocks.

(** *** The counter name *)

Lemma wordRuns_In (w : jsstring) :
  forall s acc,
    forallb is_word acc = true -> In w (wordRuns s acc) ->
    w <> [] /\ forallb is_word w = true
    /\ exists pre post, rev acc ++ s = pre ++ w ++ post.
Proof.
  assert (Hacc : forall acc post,
             forallb is_word acc = true ->
             In w match acc with [] => [] | _ => [rev acc] end ->
             w <> [] /\ forallb is_word w = true
             /\ exists pre post', rev acc ++ post = pre ++ w ++ post').
  { intros acc post Hw Hin. destruct acc as [|a acc]; [destruct Hin|].
    destruct Hin as [<-|[]]. split; [|split].
    - intros E. apply (f_equal (@List.length N)) in E.
      rewrite length_rev in E. discriminate.
    - rewrite forallb_forall in *. intros x Hx. apply Hw.
      apply in_rev. exact Hx.
    - exists [], post. reflexivity. }
  induction s as [|c s IH]; intros acc Hw Hin; cbn [wordRuns] in Hin.
  - apply Hacc; assumption.
  - destruct (is_word c) eqn:Ec.
    + destruct (IH (c :: acc)) as (Hne & Hww & pre & post & Heq); auto.
      { cbn [forallb]. rewrite Ec, Hw. reflexivity. }
      split; [exact Hne|]. split; [exact Hww|].
      exists pre, post. rewrite <- Heq. cbn [rev].
      rewrite <- app_assoc. reflexivity.
    + apply in_app_iff in Hin. destruct Hin as [Hin|Hin].
      * apply Hacc; assumption.
      * destruct (IH [] eq_refl Hin) as (Hne & Hww & pre & post & Heq).
        split; [exact Hne|]. split; [exact Hww|].
        exists (rev acc ++ c :: pre), post.
        cbn [rev app] in Heq. rewrite Heq, <- app_assoc. reflexivity.
Qed.

(** X10.  The counter name that the function reads off a query is a word of
    the query: it occurs in the query, is made of word characters only, and
    ends in [_total], [_sum] or [_count] after at least one character. *)
Theorem counter_name_is_a_word (query name : jsstring)
  (Hmatch : matchCounterName query = Some name) :
  forallb is_word name = true
  /\ (exists pre post, query = pre ++ name ++ post)
  /\ exists stem suffix,
      name = stem ++ suffix /\ stem <> []
      /\ In suffix [lit "_total"; lit "_sum"; lit "_count"].
Proof.
  unfold matchCounterName in Hmatch. apply find_some in Hmatch.
  destruct Hmatch as [Hin Hsuf].
  destruct (wordRuns_In name query [] eq_refl Hin) as (_ & Hw & Hsub).
  split; [exact Hw|]. split; [exact Hsub|].
  unfold hasCounterSuffix in Hsuf. apply existsb_exists in Hsuf.
  destruct Hsuf as (suf & Hs & Hc). apply andb_true_iff in Hc.
  destruct Hc as [He Hl]. apply endsWith_iff in He. destruct He as [stem ->].
  exists stem, suf. split; [reflexivity|]. split; [|exact Hs].
  apply Nat.ltb_lt in Hl. rewrite length_app in Hl.
  intros ->. simpl in Hl. lia.
Qed.

Lemma counter_name_is_a_word_witness :
  matchCounterName (lit "sum(http_requests_total) by (job)")
  = Some (lit "http_requests_total")
  /\ exists pre post,
      lit "sum(http_requests_total) by (job)"
      = pre ++ lit "http_requests_total" ++ post.
Proof.
  split; [vm_compute; reflexivity|].
  apply (counter_name_is_a_word (lit "sum(http_requests_total) by (job)")
           (lit "http_requests_total")).
  vm_compute. reflexivity.
Defined.

(** *** Witnesses *)

Lemma histogram_hint_iff_bucket_witness :
  getQueryHints bareHost bucketQuery manySeries None None
  = Some [histogramHint bareHost (queryOf bucketQuery);
          addSumHint bareHost (queryOf bucketQuery)]
  /\ exists p, p <> [] /\ forallb is_word p = true
               /\ trim (queryOf bucketQuery) = p ++ lit "_bucket".
Proof.
  assert (E : getQueryHints bareHost bucketQuery manySeries None None
              = Some [histogramHint bareHost (queryOf bucketQuery);
                      addSumHint bareHost (queryOf bucketQuery)])
    by (vm_compute; reflexivity).
  split; [exact E|].
  apply (proj1 (proj1 (histogram_hint_iff_bucket bareHost bucketQuery
                         manySeries None None _ E))).
  exists (histogramHint bareHost (queryOf bucketQuery)).
  split; [left; reflexivity | reflexivity].
Defined.

Lemma histogram_hint_brings_sum_hint_witness :
  exists before between after,
    [histogramHint bareHost (queryOf bucketQuery);
     addSumHint bareHost (queryOf bucketQuery)]
    = before ++ histogramHint bareHost (queryOf bucketQuery) :: between
      ++ addSumHint bareHost (queryOf bucketQuery) :: after.
Proof.
  apply (histogram_hint_brings_sum_hint bareHost bucketQuery (repeat tt 25)
           None None).
  - vm_compute. reflexivity.
  - vm_compute. lia.
  - exists (histogramHint bareHost (queryOf bucketQuery)).
    split; [left; reflexivity | reflexivity].
Defined.

Lemma hints_come_in_fixed_order_witness :
  getQueryHints wordHost counterQuery manySeries (Some demoDatasource) (Some tt)
  = Some [rateHint wordHost true (queryOf counterQuery) (queryOf counterQuery);
          addSumHint wordHost (queryOf counterQuery);
          mkHint wordHost (lit "SAFE_INTERVAL")
            (safeIntervalLabel wordHost counterQuery (Some 36)) None]
  /\ NoDup (map (hint_type wordHost)
              [rateHint wordHost true (queryOf counterQuery)
                 (queryOf counterQuery);
               addSumHint wordHost (queryOf counterQuery);
               mkHint wordHost (lit "SAFE_INTERVAL")
                 (safeIntervalLabel wordHost counterQuery (Some 36)) None]).
Proof.
  assert (E : getQueryHints wordHost counterQuery manySeries
                (Some demoDatasource) (Some tt)
              = Some [rateHint wordHost true (queryOf counterQuery)
                        (queryOf counterQuery);
                      addSumHint wordHost (queryOf counterQuery);
                      mkHint wordHost (lit "SAFE_INTERVAL")
                        (safeIntervalLabel wordHost counterQuery (Some 36))
                        None])
    by (vm_compute; reflexivity).
  split; [exact E|].
  exact (proj2 (proj2 (hints_come_in_fixed_order wordHost counterQuery
                         manySeries (Some demoDatasource) (Some tt) _ E))).
Defined.

Lemma rate_query_gets_no_rate_hint_witness :
  queryOf rateQuery = [] ++ lit "rate(" ++ lit "http_requests_total[5m])"
  /\ rateHints wordHost (queryOf rateQuery) (Some demoDatasource) = Some [].
Proof.
  split; [reflexivity|].
  apply (proj1 (rate_query_gets_no_rate_hint wordHost rateQuery manySeries
                  (Some demoDatasource) None []
                  (lit "http_requests_total[5m])") (or_introl eq_refl))).
Defined.

Lemma rate_hint_without_datasource_witness :
  getQueryHints bareHost counterQuery None None None
  = Some [rateHint bareHost false (queryOf counterQuery) (queryOf counterQuery)]
  /\ exists name, matchCounterName (queryOf counterQuery) = Some name.
Proof.
  assert (E : getQueryHints bareHost counterQuery None None None
              = Some [rateHint bareHost false (queryOf counterQuery)
                        (queryOf counterQuery)])
    by (vm_compute; reflexivity).
  split; [exact E|].
  destruct (proj1 (proj1 (rate_hint_without_datasource bareHost counterQuery
                            None None _ E))
              (ex_intro _ _ (conj (or_introl eq_refl) eq_refl)))
    as (_ & _ & Hn).
  exact Hn.
Defined.

Lemma rate_hint_with_metadata_witness :
  exists name item rest,
    In name [lit "http_requests_total"]
    /\ lookup name [(lit "http_requests_total",
                     [mkMetadataItem (lit "Counter")])]
       = Some (item :: rest)
    /\ jsstring_eqb (toLowerCase wordHost (md_type item)) (lit "counter") = true
    /\ regexpFound wordHost (lit "\b" ++ name ++ lit "\b")
         (queryOf counterQuery) = Some true
    /\ rateHint wordHost true (queryOf counterQuery) (queryOf counterQuery)
       = rateHint wordHost true name (queryOf counterQuery).
Proof.
  apply (rate_hint_with_metadata wordHost counterQuery None demoDatasource
           None [(lit "http_requests_total", [mkMetadataItem (lit "Counter")])]
           [rateHint wordHost true (queryOf counterQuery)
              (queryOf counterQuery)]).
  - reflexivity.
  - discriminate.
  - vm_compute. reflexivity.
  - left. reflexivity.
  - reflexivity.
Defined.

Lemma expand_rules_hint_witness :
  getQueryHints wordHost ruleQuery None (Some demoDatasource) None
  = Some [expandRulesHint wordHost (queryOf ruleQuery)
            [(lit "job:rate5m",
              lit "sum by (job) (rate(http_requests_total[5m]))")]]
  /\ exists d m kv,
      Some demoDatasource = Some d /\ ruleMappings wordHost d = Some m
      /\ In kv m
      /\ regexpFound wordHost (fst kv) (queryOf ruleQuery) = Some true.
Proof.
  assert (E : getQueryHints wordHost ruleQuery None (Some demoDatasource) None
              = Some [expandRulesHint wordHost (queryOf ruleQuery)
                        [(lit "job:rate5m",
                          lit "sum by (job) (rate(http_requests_total[5m]))")]])
    by (vm_compute; reflexivity).
  split; [exact E|].
  apply (proj1 (proj1 (expand_rules_hint wordHost ruleQuery None
                         (Some demoDatasource) None _ E))).
  eexists. split; [left; reflexivity | reflexivity].
Defined.

Lemma safe_interval_hint_witness :
  getQueryHints wordHost ruleQuery None (Some demoDatasource) (Some tt)
  = Some [expandRulesHint wordHost (queryOf ruleQuery)
            [(lit "job:rate5m",
              lit "sum by (job) (rate(http_requests_total[5m]))")];
          mkHint wordHost (lit "SAFE_INTERVAL")
            (safeIntervalLabel wordHost ruleQuery (Some 36)) None]
  /\ exists d t seconds,
      Some demoDatasource = Some d /\ Some tt = Some t
      /\ intervalToSeconds wordHost (intervalOf ruleQuery) = Some seconds
      /\ num_truthy wordHost (safeIntervalOf wordHost d t) = true
      /\ num_lt wordHost seconds (safeIntervalOf wordHost d t) = true.
Proof.
  assert (E : getQueryHints wordHost ruleQuery None (Some demoDatasource)
                (Some tt)
              = Some [expandRulesHint wordHost (queryOf ruleQuery)
                        [(lit "job:rate5m",
                          lit "sum by (job) (rate(http_requests_total[5m]))")];
                      mkHint wordHost (lit "SAFE_INTERVAL")
                        (safeIntervalLabel wordHost ruleQuery (Some 36)) None])
    by (vm_compute; reflexivity).
  split; [exact E|].
  apply (proj1 (proj1 (safe_interval_hint wordHost ruleQuery None
                         (Some demoDatasource) (Some tt) _ E))).
  eexists. split; [right; left; reflexivity | reflexivity].
Defined.

Example showInt_digits :
  showInt 36 = lit "36" /\ showInt 0 = lit "0" /\ showInt (-120) = lit "-120"
  /\ showInt 1000 = lit "1000".
Proof. vm_compute. repeat split. Qed.

(** Under step mode [exact] the label quotes the safe interval. *)
Example exact_label_quotes_safe_interval :
  safeIntervalLabel wordHost ruleQuery (Some 36)
  = lit "The specified step interval is lower than the safe interval and has been changed to 36s. Consider increasing the step interval or changing the time range".
Proof. vm_compute. reflexivity. Qed.

Lemma exceptions_escape_witness :
  intervalToSeconds wordHost (intervalOf badIntervalQuery) = None
  /\ getQueryHints wordHost badIntervalQuery None None (Some tt) = None.
Proof.
  split; [reflexivity|].
  apply (proj1 (exceptions_escape wordHost badIntervalQuery None None
                  (Some tt)) tt eq_refl).
  reflexivity.
Defined.

(** *** [getInitHints] *)

(** X11.  [getInitHints] warns about Loki iff the data source's direct URL
    contains [/loki] and no metric names were loaded, and tells that lookups
    are disabled iff they are; the Loki warning comes first, and every hint
    is of type [INFO] without a fix. *)
Theorem getInitHints_cases (H : Host) (ds : InitDatasource) :
  (In (mkHint H (lit "INFO") lokiHintLabel None) (getInitHints H ds)
   <-> (exists pre post, directUrl ds = pre ++ lit "/loki" ++ post)
       /\ languageProvider_metrics ds = [])
  /\ (In (mkHint H (lit "INFO") lookupsHintLabel None) (getInitHints H ds)
      <-> lookupsDisabled ds = true)
  /\ (exists b1 b2,
         getInitHints H ds
         = optional b1 (mkHint H (lit "INFO") lokiHintLabel None)
           ++ optional b2 (mkHint H (lit "INFO") lookupsHintLabel None)).
Proof.
  assert (Hne : mkHint H (lit "INFO") lokiHintLabel None
                <> mkHint H (lit "INFO") lookupsHintLabel None).
  { intros E. injection E as E. vm_compute in E. discriminate. }
  assert (Hloki :
    includes (directUrl ds) (lit "/loki")
    && (List.length (languageProvider_metrics ds) =? 0)%nat = true
    <-> (exists pre post, directUrl ds = pre ++ lit "/loki" ++ post)
        /\ languageProvider_metrics ds = []).
  { rewrite andb_true_iff, includes_iff, Nat.eqb_eq.
    destruct (languageProvider_metrics ds); simpl; split;
      intros [? ?]; split; auto; discriminate. }
  unfold getInitHints.
  destruct (includes (directUrl ds) (lit "/loki")
            && (List.length (languageProvider_metrics ds) =? 0)%nat) eqn:E1;
    destruct (lookupsDisabled ds) eqn:E2; simpl;
    (split; [|split; [|first [ exists true, true; reflexivity
                             | exists true, false; reflexivity
                             | exists false, true; reflexivity
                             | exists false, false; reflexivity ]]]).
  all: try (rewrite <- Hloki).
  all: split; intros; auto; try discriminate;
       repeat match goal with
              | Hx : _ \/ _ |- _ => destruct Hx
              | Hx : False |- _ => destruct Hx
              end;
       try congruence; try (exfalso; apply Hne; congruence).
Qed.

End QueryHintsMore.

(** ** ngalert.go: start-up and [Run], further *)
Module NgalertMore.
Import Ngalert NgalertFacts.

(** *** Start-up *)

(** The store, the state manager and the scheduler that [init] builds for
    the configuration [c]. *)
Lemma init_eq (ng : AlertNG) (c : Cfg) (w : World) :
  ng_Cfg ng = Some c ->
  init ng w
  = match syncOutcome w with
    | Some e =>
        Ret (Some e,
             mkAlertNG (Some c) (ng_schedule ng) (ng_stateManager ng)
               (Some (mkMOA (storeOf c))))
            (mkWorld (syncOutcome w)
               (effects w ++
                [EffNewMultiOrgAlertmanager (storeOf c);
                 EffLoadAndSyncAlertmanagersForOrgs]))
    | None =>
        Ret (None,
             mkAlertNG (Some c) (Some (scheduleOf c))
               (Some (mkManager (storeOf c))) (Some (mkMOA (storeOf c))))
            (mkWorld (syncOutcome w) (effects w ++ startEffects c))
    end.
Proof.
  intros Hc. unfold init. rewrite Hc.
  unfold bind, NewMultiOrgAlertmanager, LoadAndSyncAlertmanagersForOrgs,
    NewManager, NewScheduler, perform, ret, bind; simpl.
  destruct (syncOutcome w) as [e|] eqn:Hs; simpl.
  - rewrite <- app_assoc. reflexivity.
  - unfold startEffects. rewrite <- !app_assoc. reflexivity.
Qed.

Lemma ProvideService_eq (cfg : option Cfg) (w : World) :
  ProvideService cfg w
  = let w0 := mkWorld (syncOutcome w) (effects w ++ [EffLogNew "ngalert"]) in
    match cfg with
    | None => Ret (Some (mkAlertNG None None None None), None) w0
    | Some c =>
        if IsNgAlertEnabled c
        then match syncOutcome w with
             | Some e =>
                 Ret (None, Some e)
                     (mkWorld (syncOutcome w)
                        (effects w0 ++
                         [EffNewMultiOrgAlertmanager (storeOf c);
                          EffLoadAndSyncAlertmanagersForOrgs]))
             | None =>
                 Ret (Some (mkAlertNG (Some c) (Some (scheduleOf c))
                              (Some (mkManager (storeOf c)))
                              (Some (mkMOA (storeOf c)))), None)
                     (mkWorld (syncOutcome w) (effects w0 ++ startEffects c))
             end
        else Ret (Some (mkAlertNG (Some c) None None None), None) w0
    end.
Proof.
  unfold ProvideService, bind at 1, perform. unfold IsDisabled. cbn [ng_Cfg].
  destruct cfg as [c|]; [|reflexivity].
  destruct (IsNgAlertEnabled c); cbn [negb]; [|reflexivity].
  unfold bind.
  rewrite (init_eq (mkAlertNG (Some c) None None None) c _ eq_refl).
  cbn [syncOutcome effects]. destruct (syncOutcome w); reflexivity.
Qed.

(** X12.  [ProvideService] never panics: it checks [IsDisabled] before
    [init] reads the configuration, whereas [init] on a service without
    configuration dereferences nil.  It returns either a service or an
    error, never both and never neither. *)
Theorem ProvideService_returns_service_or_error (cfg : option Cfg)
  (w : World) :
  (exists r w',
      ProvideService cfg w = Ret r w'
      /\ ((fst r = None /\ snd r <> None) \/ (fst r <> None /\ snd r = None)))
  /\ (forall ng w0, ng_Cfg ng = None -> init ng w0 = Panic w0).
Proof.
  split.
  - rewrite ProvideService_eq. cbn zeta.
    destruct cfg as [c|].
    + destruct (IsNgAlertEnabled c).
      * destruct (syncOutcome w); do 2 eexists; (split; [reflexivity|]);
          simpl; [left | right]; split; congruence.
      * do 2 eexists. split; [reflexivity|]. right. split; simpl; congruence.
    + do 2 eexists. split; [reflexivity|]. right. split; simpl; congruence.
  - intros ng w0 Hc. unfold init. rewrite Hc. reflexivity.
Qed.

Lemma componentsAfterSync_split (l : list Effect) :
  forall seen, componentsAfterSync seen l = true ->
    forall pre e post, l = pre ++ e :: post -> startsComponent e = true ->
      seen = true \/ In EffLoadAndSyncAlertmanagersForOrgs pre.
Proof.
  induction l as [|x l IH]; intros seen Hok pre e post Hl He.
  - destruct pre; discriminate.
  - cbn [componentsAfterSync] in Hok. apply andb_true_iff in Hok.
    destruct Hok as [Hx Hrest]. destruct pre as [|p0 pre].
    + injection Hl as -> ->. rewrite He in Hx. simpl in Hx. left. exact Hx.
    + injection Hl as -> ->.
      destruct (IH _ Hrest pre e post eq_refl He) as [Hs|Hin].
      * apply orb_true_iff in Hs. destruct Hs as [Hs|Hs]; [left; exact Hs|].
        right. left. destruct p0; simpl in Hs; try discriminate. reflexivity.
      * right. right. exact Hin.
Qed.

(** X13.  Start-up completes the initial sync of the Alertmanagers before it
    starts the alerting components: in the effects of every
    [ProvideService], each construction of the state manager or the
    scheduler and the API registration comes after the one sync, and only
    when that sync succeeded. *)
Theorem sync_precedes_components (cfg : option Cfg) (w w' : World)
  (r : option AlertNG * option error)
  (Hrun : ProvideService cfg w = Ret r w') :
  exists new,
    effects w' = effects w ++ new
    /\ (List.length (filter isSync new) <= 1)%nat
    /\ forall pre e post,
        new = pre ++ e :: post -> startsComponent e = true ->
        In EffLoadAndSyncAlertmanagersForOrgs pre /\ syncOutcome w = None.
Proof.
  rewrite ProvideService_eq in Hrun. cbn zeta in Hrun.
  assert (Hstart : forall c, componentsAfterSync false
                               (EffLogNew "ngalert" :: startEffects c) = true)
    by reflexivity.
  destruct cfg as [c|].
  - destruct (IsNgAlertEnabled c).
    + destruct (syncOutcome w) as [err|] eqn:Hs.
      * injection Hrun as <- <-. eexists. cbn [effects].
        rewrite <- app_assoc. split; [reflexivity|]. split; [simpl; lia|].
        intros pre e post Hl He. exfalso.
        assert (Hin : In e ([EffLogNew "ngalert"] ++
                            [EffNewMultiOrgAlertmanager (storeOf c);
                             EffLoadAndSyncAlertmanagersForOrgs]))
          by (rewrite Hl; apply in_elt).
        simpl in Hin. destruct Hin as [<-|[<-|[<-|[]]]]; discriminate.
      * injection Hrun as <- <-. eexists. cbn [effects].
        rewrite <- app_assoc. split; [reflexivity|]. split; [simpl; lia|].
        intros pre e post Hl He. split; [|reflexivity].
        destruct (componentsAfterSync_split _ _ (Hstart c) pre e post Hl He)
          as [Hf|Hin]; [discriminate | exact Hin].
    + injection Hrun as <- <-. eexists. cbn [effects].
      split; [reflexivity|]. split; [simpl; lia|].
      intros pre e post Hl He. exfalso.
      destruct pre as [|? [|? ?]]; try discriminate.
      injection Hl as <- _. discriminate.
  - injection Hrun as <- <-. eexists. cbn [effects].
    split; [reflexivity|]. split; [simpl; lia|].
    intros pre e post Hl He. exfalso.
    destruct pre as [|? [|? ?]]; try discriminate.
    injection Hl as <- _. discriminate.
Qed.

Lemma sync_precedes_components_witness :
  exists new,
    effects (mkWorld None (EffLogNew "ngalert" :: startEffects enabledCfg))
    = effects (freshWorld None) ++ new
    /\ (List.length (filter isSync new) <= 1)%nat
    /\ forall pre e post,
        new = pre ++ e :: post -> startsComponent e = true ->
        In EffLoadAndSyncAlertmanagersForOrgs pre
        /\ syncOutcome (freshWorld None) = None.
Proof.
  apply (sync_precedes_components (Some enabledCfg) (freshWorld None)
           (mkWorld None (EffLogNew "ngalert" :: startEffects enabledCfg))
           (Some (mkAlertNG (Some enabledCfg) (Some (scheduleOf enabledCfg))
                    (Some (mkManager (storeOf enabledCfg)))
                    (Some (mkMOA (storeOf enabledCfg)))), None)).
  vm_compute. reflexivity.
Defined.

(** X14.  A start-up that goes through wires all components to one store:
    the state manager, the scheduler's instance store and the
    MultiOrgAlertmanager share the [DBstore] whose base interval is the
    scheduler's and whose default rule interval is 60 seconds; the scheduler
    holds the service's state manager, and the service keeps its
    configuration. *)
Theorem init_wires_one_store (ng ng' : AlertNG) (c : Cfg) (w w' : World)
  (Hcfg : ng_Cfg ng = Some c)
  (Hinit : init ng w = Ret (None, ng') w') :
  exists sch mgr moa,
    ng_schedule ng' = Some sch /\ ng_stateManager ng' = Some mgr
    /\ ng_MultiOrgAlertmanager ng' = Some moa
    /\ ng_Cfg ng' = Some c
    /\ sch_stateManager sch = mgr
    /\ InstanceStore (sch_cfg sch) = mgr_store mgr
    /\ moa_store moa = mgr_store mgr
    /\ BaseInterval (sch_cfg sch) = store_BaseInterval (mgr_store mgr)
    /\ store_DefaultIntervalSeconds (mgr_store mgr) = 60
    /\ sch_appURL sch = AppURL c
    /\ sched_AdminConfigPollInterval (sch_cfg sch) = AdminConfigPollInterval c.
Proof.
  rewrite (init_eq ng c w Hcfg) in Hinit.
  destruct (syncOutcome w); [discriminate|].
  injection Hinit as <- _.
  exists (scheduleOf c), (mkManager (storeOf c)), (mkMOA (storeOf c)).
  repeat split.
Qed.

Lemma init_wires_one_store_witness :
  exists sch mgr moa,
    Some (scheduleOf enabledCfg) = Some sch
    /\ Some (mkManager (storeOf enabledCfg)) = Some mgr
    /\ Some (mkMOA (storeOf enabledCfg)) = Some moa
    /\ Some enabledCfg = Some enabledCfg
    /\ sch_stateManager sch = mgr
    /\ InstanceStore (sch_cfg sch) = mgr_store mgr
    /\ moa_store moa = mgr_store mgr
    /\ BaseInterval (sch_cfg sch) = store_BaseInterval (mgr_store mgr)
    /\ store_DefaultIntervalSeconds (mgr_store mgr) = 60
    /\ sch_appURL sch = AppURL enabledCfg
    /\ sched_AdminConfigPollInterval (sch_cfg sch)
       = AdminConfigPollInterval enabledCfg.
Proof.
  apply (init_wires_one_store (mkAlertNG (Some enabledCfg) None None None)
           (mkAlertNG (Some enabledCfg) (Some (scheduleOf enabledCfg))
              (Some (mkManager (storeOf enabledCfg)))
              (Some (mkMOA (storeOf enabledCfg))))
           enabledCfg (freshWorld None)
           (mkWorld None (startEffects enabledCfg)) eq_refl).
  vm_compute. reflexivity.
Defined.

(** X15.  The base interval is the configured number of seconds as a
    duration as long as the multiplication by [time.Second] fits into 64
    bits, that is up to 9223372036; from 9223372037 on it wraps around to a
    negative duration. *)
Theorem base_interval_overflow (configured : Z) :
  (0 < configured <= 9223372036 ->
   baseIntervalOf configured = configured * time_Second
   /\ 0 < baseIntervalOf configured)
  /\ (9223372037 <= configured <= 18446744073 ->
      baseIntervalOf configured = configured * time_Second - 2 ^ 64
      /\ baseIntervalOf configured < 0).
Proof.
  unfold baseIntervalOf, wrap64, time_Second.
  change (2 ^ 63) with 9223372036854775808.
  change (2 ^ 64) with 18446744073709551616.
  split; intros Hc; (destruct (Z.leb_spec configured 0); [lia|]).
  - rewrite Z.mod_small by lia. lia.
  - replace (configured * 1000000000 + 9223372036854775808)
      with (configured * 1000000000 + 9223372036854775808
            - 18446744073709551616 + 1 * 18446744073709551616) by lia.
    rewrite Z_mod_plus_full. rewrite Z.mod_small by lia. lia.
Qed.

Lemma base_interval_overflow_witness :
  (0 < 30 <= 9223372036 /\ baseIntervalOf 30 = 30 * time_Second)
  /\ (9223372037 <= 9223372037 <= 18446744073
      /\ baseIntervalOf 9223372037 < 0).
Proof.
  split; (split; [lia|]).
  - apply (proj1 (base_interval_overflow 30)). lia.
  - apply (proj2 (base_interval_overflow 9223372037)). lia.
Defined.

(** *** [Run]: the error group *)

Lemma firstError_cons (ev : Event) (tr : list Event) :
  isLoopError ev = false -> firstError (ev :: tr) = firstError tr.
Proof.
  intros Hev. cbn [firstError]. destruct (firstError tr); [reflexivity|].
  destruct ev as [| | | | |[e|]| |[e|]| |]; simpl in Hev;
    try discriminate; reflexivity.
Qed.

Lemma firstError_none (l : list Event) :
  firstError l = None <-> forall ev', In ev' l -> isLoopError ev' = false.
Proof.
  induction l as [|x l IH]; cbn [firstError].
  - split; [intros _ ev' [] | reflexivity].
  - destruct (firstError l) as [e0|] eqn:El.
    + split; [discriminate|]. intros Hall.
      assert (Hx : Some e0 = None); [|discriminate].
      apply IH. intros ev' Hin. apply Hall. right. exact Hin.
    + split.
      * intros Hx ev' [<-|Hin]; [|apply (proj1 IH eq_refl); exact Hin].
        destruct x as [| | | | |[e1|]| |[e1|]| |]; try discriminate;
          reflexivity.
      * intros Hall. specialize (Hall x (or_introl eq_refl)).
        destruct x as [| | | | |[e1|]| |[e1|]| |]; try discriminate;
          reflexivity.
Qed.

(** [firstError] is the error of the oldest loop return that carries one. *)
Lemma firstError_some (tr : list Event) (e : error) :
  firstError tr = Some e <->
  exists later ev earlier,
    tr = later ++ ev :: earlier
    /\ (ev = EvScheduleReturn (Some e) \/ ev = EvAlertmanagerReturn (Some e))
    /\ forall ev', In ev' earlier -> isLoopError ev' = false.
Proof.
  induction tr as [|x tr IH]; cbn [firstError].
  - split; [discriminate | intros (l & ev & ea & Hl & _); destruct l; discriminate].
  - destruct (firstError tr) as [e0|] eqn:El.
    + split.
      * intros Hx. injection Hx as ->.
        destruct (proj1 IH eq_refl) as (l & ev & ea & -> & Hev & Hall).
        exists (x :: l), ev, ea. auto.
      * intros (l & ev & ea & Hl & Hev & Hall). destruct l as [|y l].
        -- injection Hl as -> ->.
           assert (Hx : firstError ea = None)
             by (apply firstError_none; exact Hall).
           congruence.
        -- injection Hl as -> ->. apply IH. exists l, ev, ea. auto.
    + split.
      * intros Hx. exists [], x, tr. split; [reflexivity|].
        split; [|apply firstError_none; exact El].
        destruct x as [| | | | |[e1|]| |[e1|]| |]; try discriminate;
          injection Hx as <-; auto.
      * intros (l & ev & ea & Hl & Hev & Hall). destruct l as [|y l].
        -- injection Hl as -> ->. destruct Hev as [->| ->]; reflexivity.
        -- injection Hl as -> ->. exfalso.
           assert (Hin : In ev (l ++ ev :: ea)) by apply in_elt.
           pose proof (proj1 (firstError_none _) El ev Hin) as Hf.
           destruct Hev as [->| ->]; discriminate.
Qed.

Lemma GroupInv_enter store : GroupInv (enterRun store).
Proof.
  constructor; simpl; try tauto; try reflexivity; try discriminate;
    intros; congruence.
Qed.

Section GroupFacts.
Variable L : Loops.

Lemma GroupInv_exec store (s s' : RunState) (a : Action) :
  Inv store s -> GroupInv s -> exec L a s = Some s' -> GroupInv s'.
Proof.
  intros [I1 I2 I3 I4 I5 I6 I7 I8 I9] [G1 G2 G3 G4 G5 G6] Hex.
  exec_cases Hex.
  all: unfold recordErr in *;
       cbn [pc sched am ctxDone groupCancelled groupErr trace pcRank
            loopRank fst snd] in *.
  all: constructor; cbn [pc sched am ctxDone groupCancelled groupErr trace
                         pcRank loopRank fst snd] in *.
  all: rewrite ?firstError_cons by reflexivity.
  all: try assumption; try (intros; lia); try discriminate;
       try (intros; apply G1; lia); try (intros; apply G6; lia);
       try (intros _; split; reflexivity);
       try (intros; reflexivity);
       try (intros; congruence).
  all: try (symmetry; apply G6; lia).
  all: try (intros Hr; exfalso; destruct I4 as [I4a I4b];
            destruct I5 as [I5a I5b]; simpl in *; lia).
  all: try (intros e0 Hs; exfalso; subst; destruct I4 as [I4a I4b];
            destruct I5 as [I5a I5b]; simpl in *; lia).
  all: destruct r as [e1|]; destruct (firstError tr) as [e2|] eqn:Ef;
       cbn [fst snd firstError]; rewrite ?Ef;
       try reflexivity; try discriminate; try congruence.
  all: try (intros _; apply G3; discriminate).
  all: try (intros e0 Hs; first [ exact (G4 e0 Hs) | exact (G5 e0 Hs) ]).
Qed.

Lemma reachable_GroupInv store s : reachable L store s -> GroupInv s.
Proof.
  induction 1 as [|s a s' Hreach IH Hex]; [apply GroupInv_enter|].
  eapply GroupInv_exec; [eapply reachable_Inv; eauto | exact IH | exact Hex].
Qed.

(** X16.  A loop that returns an error takes the other one down: in every
    state in which the scheduler loop or the Alertmanager loop has returned
    an error, the group has recorded an error and has cancelled the context
    that both loops run under. *)
Theorem loop_error_cancels_group
  (store : list StateManager.AlertInstance) (s : RunState) (e : error)
  (Hreach : reachable L store s)
  (Hfail : sched s = Finished (Some e) \/ am s = Finished (Some e)) :
  groupErr s <> None /\ groupCancelled s = true /\ subCtxDone s = true.
Proof.
  pose proof (reachable_GroupInv _ _ Hreach) as [G1 G2 G3 G4 G5 G6].
  assert (He : groupErr s <> None)
    by (destruct Hfail as [Hf|Hf]; [exact (G4 e Hf) | exact (G5 e Hf)]).
  split; [exact He|]. split; [exact (G3 He)|].
  unfold subCtxDone. rewrite (G3 He). apply orb_true_r.
Qed.

(** X17.  [Run] returns nil iff both loops returned nil. *)
Theorem Run_returns_nil_iff_both_nil
  (store : list StateManager.AlertInstance) (s : RunState)
  (r : option error)
  (Hreach : reachable L store s) (Hret : pc s = Returned r) :
  r = None <-> sched s = Finished None /\ am s = Finished None.
Proof.
  pose proof (reachable_Inv _ _ _ Hreach) as [I1 I2 I3 I4 I5 I6 I7 I8 I9].
  pose proof (reachable_GroupInv _ _ Hreach) as [G1 G2 G3 G4 G5 G6].
  pose proof (I9 r Hret) as Hr.
  assert (Hrank : pcRank (pc s) = 7%nat) by (rewrite Hret; reflexivity).
  destruct (I7 Hrank) as [Hs Ha].
  split.
  - intros ->. split.
    + destruct (sched s) as [| |[e|]]; simpl in Hs; try discriminate;
        [|reflexivity].
      exfalso. apply (G4 e eq_refl). congruence.
    + destruct (am s) as [| |[e|]]; simpl in Ha; try discriminate;
        [|reflexivity].
      exfalso. apply (G5 e eq_refl). congruence.
  - intros [Hs' Ha']. destruct r as [e|]; [|reflexivity].
    exfalso. destruct (I8 e (eq_sym Hr)) as [Hx|Hx]; congruence.
Qed.

(** X18.  The error that [Run] returns is the first one: the error of the
    oldest loop return in the trace that carries an error; later errors are
    dropped. *)
Theorem Run_returns_first_error
  (store : list StateManager.AlertInstance) (s : RunState) (e : error)
  (Hreach : reachable L store s) (Hret : pc s = Returned (Some e)) :
  exists later ev earlier,
    trace s = later ++ ev :: earlier
    /\ (ev = EvScheduleReturn (Some e) \/ ev = EvAlertmanagerReturn (Some e))
    /\ forall ev', In ev' earlier -> isLoopError ev' = false.
Proof.
  pose proof (reachable_Inv _ _ _ Hreach) as [I1 I2 I3 I4 I5 I6 I7 I8 I9].
  pose proof (reachable_GroupInv _ _ Hreach) as [G1 G2 G3 G4 G5 G6].
  apply firstError_some. rewrite <- G2. symmetry. apply I9. exact Hret.
Qed.

(** X19.  With loops that stop when their context is cancelled, [Run] winds
    down as soon as the loops' context is done, be it through the caller's
    cancellation or through a loop's error: every further action brings the
    execution strictly closer to its end, and it can only end where both
    loops have returned and [Run] has. *)
Theorem Run_winds_down_once_done
  (store : list StateManager.AlertInstance) (s : RunState)
  (Hreach : reachable L store s) (Hstop : stopOnCancel L)
  (Hdone : subCtxDone s = true) :
  (forall a s', exec L a s = Some s' ->
                subCtxDone s' = true
                /\ (remainingAfterDone s' < remainingAfterDone s)%nat)
  /\ ((forall a, exec L a s = None) ->
      exists r, pc s = Returned r
                /\ isFinished (sched s) = true /\ isFinished (am s) = true).
Proof.
  pose proof (reachable_Inv _ _ _ Hreach) as [I1 I2 I3 I4 I5 I6 I7 I8 I9].
  pose proof (reachable_GroupInv _ _ Hreach) as [G1 G2 G3 G4 G5 G6].
  destruct Hstop as (Htick & (rs & Hrs) & (ra & Hra)).
  split.
  - intros a s' Hex. unfold remainingAfterDone, remaining.
    exec_cases Hex; unfold subCtxDone, recordErr in *; simpl in *;
      try discriminate;
      rewrite ?andb_true_iff, ?isFinished_rank in *;
      try (rewrite Hdone in *; congruence).
    all: try (destruct (G1 ltac:(lia)) as [Hgc _]; subst gc;
              rewrite orb_false_r in Hdone; subst cd).
    all: split;
         [ try reflexivity; try assumption;
           try (destruct r as [?|]; destruct ge as [?|]; simpl;
                rewrite ?orb_true_r; auto)
         | try lia; try (destruct cd; simpl; lia) ].
    all: try (destruct I4 as [_ I4]; specialize (I4 ltac:(lia));
              destruct sc; simpl in *; try discriminate;
              first [ lia | destruct cd; lia ]).
    all: try (destruct I5 as [_ I5]; specialize (I5 ltac:(lia));
              destruct al; simpl in *; try discriminate;
              first [ lia | destruct cd; lia ]).
    all: try apply orb_true_r; try exact Hdone.
    all: destruct r as [e1|]; destruct (firstError tr) as [e2|];
         cbn [snd]; rewrite ?orb_true_r; auto.
  - intros Hstuck.
    destruct (pc s) eqn:Hpc;
      try (specialize (Hstuck ActMain); unfold exec in Hstuck;
           rewrite Hpc in Hstuck; discriminate).
    + destruct (sched s) eqn:Hsc.
      * destruct I4 as [I4 _]. simpl in I4. specialize (I4 eq_refl); lia.
      * specialize (Hstuck (ActScheduleReturn rs)). unfold exec in Hstuck.
        rewrite Hsc, Hdone, Hrs in Hstuck. discriminate.
      * destruct (am s) eqn:Ham.
        -- destruct I5 as [I5 _]. simpl in I5. specialize (I5 eq_refl); lia.
        -- specialize (Hstuck (ActAlertmanagerReturn ra)).
           unfold exec in Hstuck.
           rewrite Ham, Hdone, Hra in Hstuck. discriminate.
        -- specialize (Hstuck ActMain). unfold exec in Hstuck.
           rewrite Hpc, Hsc, Ham in Hstuck. discriminate.
    + exists r. split; [reflexivity|].
      rewrite !isFinished_rank. apply I7. reflexivity.
Qed.

End GroupFacts.

Lemma afterBothFail_reachable : reachable specLoops [] afterBothFail.
Proof.
  apply (runActions_reachable specLoops [] bothFail (enterRun [])).
  - apply reach_enter.
  - vm_compute. reflexivity.
Qed.

Lemma loop_error_cancels_group_witness :
  reachable specLoops [] afterSchedulerFails
  /\ sched afterSchedulerFails = Finished (Some (mkError "scheduler"))
  /\ ctxDone afterSchedulerFails = false
  /\ subCtxDone afterSchedulerFails = true.
Proof.
  assert (Hr : reachable specLoops [] afterSchedulerFails).
  { apply (runActions_reachable specLoops [] schedulerFails (enterRun [])).
    - apply reach_enter.
    - vm_compute. reflexivity. }
  split; [exact Hr|]. split; [reflexivity|]. split; [reflexivity|].
  apply (loop_error_cancels_group specLoops [] afterSchedulerFails
           (mkError "scheduler") Hr (or_introl eq_refl)).
Defined.

Lemma Run_returns_nil_iff_both_nil_witness :
  pc afterCancelledRun = Returned None
  /\ (@None error = None
      <-> sched afterCancelledRun = Finished None
          /\ am afterCancelledRun = Finished None).
Proof.
  split; [reflexivity|].
  apply (Run_returns_nil_iff_both_nil specLoops [] afterCancelledRun None).
  - apply (runActions_reachable specLoops [] cancelledRun (enterRun []));
      [apply reach_enter | vm_compute; reflexivity].
  - reflexivity.
Defined.

Lemma Run_returns_first_error_witness :
  pc afterBothFail = Returned (Some (mkError "scheduler"))
  /\ exists later ev earlier,
      trace afterBothFail = later ++ ev :: earlier
      /\ (ev = EvScheduleReturn (Some (mkError "scheduler"))
          \/ ev = EvAlertmanagerReturn (Some (mkError "scheduler")))
      /\ forall ev', In ev' earlier -> isLoopError ev' = false.
Proof.
  split; [reflexivity|].
  apply (Run_returns_first_error specLoops [] afterBothFail
           (mkError "scheduler") afterBothFail_reachable).
  reflexivity.
Defined.

Lemma Run_winds_down_once_done_witness :
  subCtxDone afterSchedulerFails = true
  /\ forall a s', exec specLoops a afterSchedulerFails = Some s' ->
                  subCtxDone s' = true
                  /\ (remainingAfterDone s'
                      < remainingAfterDone afterSchedulerFails)%nat.
Proof.
  split; [reflexivity|].
  apply (Run_winds_down_once_done specLoops [] afterSchedulerFails).
  - apply (runActions_reachable specLoops [] schedulerFails (enterRun []));
      [apply reach_enter | vm_compute; reflexivity].
  - exact specLoops_stopOnCancel.
  - reflexivity.
Defined.

End NgalertMore.
